(** * Host-side marshalling of buffers into a WebAssembly guest (package [wasm])

    A shallow embedding of [wasm/wasm.go]: the packed length/offset
    descriptor, the writers [allocateInner] and [allocate], the reader
    [parseOutput] and the seven public operations, followed by the
    properties of the specification that concern them.

    Conventions of the embedding.
    - Go's [int] is the 64-bit signed integer of the targets the package is
      built for (the packing [sz<<32] presumes it); [int32] and [int64] are
      signed as well.  All of them are [Z] with the wrap-around written out.
    - A [[]byte] is a [list byte]; a Go [string] is its byte sequence.
    - The engine (wasmer) is not part of the package.  An instance is a table
      of exported guest functions together with the linear memory and the
      guest's private state; a guest function is a total state transformer
      that returns a value or fails, and the engine hands a failure back as
      an error of its own.
    - A Go slice taken from [instance.Memory.Data()] aliases the linear
      memory: it is modelled as a window (base, size) into the memory of the
      instance, and writes through it land in that memory.  The window that
      [allocate] takes before its loop stays a window into the same memory
      while the guest allocates: linear memories grow and never shrink, and
      where the engine puts a grown memory is not part of the model.
    - A run-time panic of Go is an outcome of its own, apart from a returned
      [error]. *)

From Stdlib Require Import ZArith List Lia Bool.
From stdpp Require Import base list strings gmap.
From coqutil Require Import Byte Word.LittleEndianList.

Local Open Scope Z_scope.

(** ** Integers *)

Definition wrap (w : Z) (z : Z) : Z := (z + 2 ^ (w - 1)) mod 2 ^ w - 2 ^ (w - 1).

(** Conversions to Go's [int32], [int64], [int] (64 bits) and [uint64]. *)
Definition int32 (z : Z) : Z := wrap 32 z.
Definition int64 (z : Z) : Z := wrap 64 z.
Definition int (z : Z) : Z := wrap 64 z.
Definition uint64 (z : Z) : Z := z mod 2 ^ 64.

Definition len {A : Type} (l : list A) : Z := Z.of_nat (length l).

(** ** Errors, panics and outcomes *)

Inductive error : Type :=
| errors_New (msg : string)      (* [errors.New(msg)] of this package *)
| engine_error (msg : string).   (* an error handed back by the engine *)

Inductive panic : Type :=
| nil_func_call
| slice_bounds_out_of_range
| index_out_of_range
| makeslice_len_out_of_range.

Inductive result (A : Type) : Type :=
| Ok (a : A)
| Err (e : error).
Arguments Ok {A} a.
Arguments Err {A} e.

Inductive outcome (A : Type) : Type :=
| Returns (a : A)
| Panics (p : panic).
Arguments Returns {A} a.
Arguments Panics {A} p.

(** ** The descriptor codec, as the two expressions of the source

    [pack] is [int64(sz<<32) | int64(ptr)] of [allocateInner] and [allocate]
    ([sz] an [int], [ptr] an [int32]); [unpack] is
    [int(ptr>>32), ptr & ((1 << 32) - 1)] of [parseOutput]. *)

Definition pack (sz ptr : Z) : Z :=
  Z.lor (int64 (int (Z.shiftl sz 32))) (int64 ptr).

Definition unpack (ptr : Z) : Z * Z :=
  (int (Z.shiftr ptr 32), Z.land ptr (Z.shiftl 1 32 - 1)).

(** ** The engine's interface *)

(** A wasmer [Value]: 64 raw bits; [ToI32] and [ToI64] read them back as
    signed integers. *)
Record Value : Type := { value_bits : Z }.

Definition ToI32 (v : Value) : Z := int32 (value_bits v).
Definition ToI64 (v : Value) : Z := int64 (value_bits v).

(** The arguments the package hands to an exported function: an [int]
    (a size) or an [int64] (a descriptor). *)
Inductive arg : Type :=
| arg_int (z : Z)
| arg_int64 (z : Z).

(** A window into the linear memory: the slice [Data()[base:]] at the time
    it was taken. *)
Record view : Type := { base : Z; size : Z }.

(** The slice expression [data[low:]]: it panics unless [0 <= low <= len]. *)
Definition slice_from (data : list byte) (low : Z) : option view :=
  if (0 <=? low) && (low <=? len data)
  then Some {| base := low; size := len data - low |}
  else None.

#[global] Instance byte_inhabited : Inhabited byte := populate Byte.x00.

(** ** Strings: [for _, ch := range string(rawResult)]

    Go iterates over the code points of the UTF-8 decoding of the string; a
    byte that starts no valid encoding yields [RuneError] and advances by one
    byte.  [decodeRune] follows [utf8.DecodeRuneInString]. *)

Definition RuneError : Z := 0xFFFD.

(** The table [first] of package [utf8] together with [acceptRanges]: for a
    leading byte, the length of the encoding and the range accepted for the
    second byte; [None] for a byte that starts no encoding. *)
Definition utf8_first (s0 : Z) : option (Z * (Z * Z)) :=
  if s0 <? 0xC2 then None
  else if s0 <? 0xE0 then Some (2, (0x80, 0xBF))
  else if s0 =? 0xE0 then Some (3, (0xA0, 0xBF))
  else if s0 <? 0xED then Some (3, (0x80, 0xBF))
  else if s0 =? 0xED then Some (3, (0x80, 0x9F))
  else if s0 <? 0xF0 then Some (3, (0x80, 0xBF))
  else if s0 =? 0xF0 then Some (4, (0x90, 0xBF))
  else if s0 <? 0xF4 then Some (4, (0x80, 0xBF))
  else if s0 =? 0xF4 then Some (4, (0x80, 0x8F))
  else None.

Definition continuation (b : Z) : bool := (0x80 <=? b) && (b <=? 0xBF).

Definition decodeRune (s : list byte) : Z * nat :=
  match s with
  | [] => (RuneError, 0%nat)
  | b0 :: t =>
      let s0 := byte.unsigned b0 in
      if s0 <? 0x80 then (s0, 1%nat)
      else
        match utf8_first s0 with
        | None => (RuneError, 1%nat)
        | Some (sz, (lo, hi)) =>
            if len s <? sz then (RuneError, 1%nat)
            else
              let s1 := byte.unsigned (t !!! 0%nat) in
              if (s1 <? lo) || (hi <? s1) then (RuneError, 1%nat)
              else if sz <=? 2
              then (Z.lor (Z.shiftl (Z.land s0 0x1F) 6) (Z.land s1 0x3F), 2%nat)
              else
                let s2 := byte.unsigned (t !!! 1%nat) in
                if negb (continuation s2) then (RuneError, 1%nat)
                else if sz <=? 3
                then (Z.lor (Z.lor (Z.shiftl (Z.land s0 0x0F) 12)
                                   (Z.shiftl (Z.land s1 0x3F) 6))
                            (Z.land s2 0x3F), 3%nat)
                else
                  let s3 := byte.unsigned (t !!! 2%nat) in
                  if negb (continuation s3) then (RuneError, 1%nat)
                  else (Z.lor (Z.lor (Z.lor (Z.shiftl (Z.land s0 0x07) 18)
                                            (Z.shiftl (Z.land s1 0x3F) 12))
                                     (Z.shiftl (Z.land s2 0x3F) 6))
                              (Z.land s3 0x3F), 4%nat)
        end
  end.

(** The code points the range loop visits, in order.  [skip] counts the
    bytes of the current encoding that remain to be stepped over. *)
Fixpoint runes_from (skip : nat) (s : list byte) : list Z :=
  match s with
  | [] => []
  | _ :: t =>
      match skip with
      | S k => runes_from k t
      | O => let '(ch, width) := decodeRune s in ch :: runes_from (pred width) t
      end
  end.

Definition runes (s : list byte) : list Z := runes_from 0 s.

Section Engine.
Context {G : Type}.

Definition guest_fn : Type :=
  list arg -> list byte -> G -> (list byte * G) * (Value + string).

Record Instance : Type := {
  Exports : gmap string guest_fn;
  Memory : list byte;
  guest : G
}.

Definition with_state (instance : Instance) (st : list byte * G) : Instance :=
  {| Exports := Exports instance; Memory := fst st; guest := snd st |}.

Definition with_memory (instance : Instance) (m : list byte) : Instance :=
  with_state instance (m, guest instance).

(** Outcome of a function that runs guest code: the instance as the call
    left it and the returned value or error, unless the host panicked. *)
Definition exec (A : Type) : Type := outcome (result A * Instance).

(** [fn(args...)] for an exported function [fn] that is not nil. *)
Definition invoke (instance : Instance) (fn : guest_fn) (args : list arg)
  : result Value * Instance :=
  let '(st, r) := fn args (Memory instance) (guest instance) in
  (match r with
   | inl res => Ok res
   | inr msg => Err (engine_error msg)
   end, with_state instance st).

(** [instance.Exports[name](args...)] with no nil check: the map yields a
    nil function for a missing name, and calling it panics. *)
Definition call (instance : Instance) (name : string) (args : list arg)
  : exec Value :=
  match Exports instance !! name with
  | None => Panics nil_func_call
  | Some fn => Returns (invoke instance fn args)
  end.

(** [copy(mem, data)]: the first [min(len(mem), len(data))] bytes of
    [data] are written through the window. *)
Definition copy (instance : Instance) (mem : view) (data : list byte)
  : Instance :=
  with_memory instance
    (list_inserts (Z.to_nat (base mem)) (take (Z.to_nat (size mem)) data)
       (Memory instance)).

(** The slice expression [mem[lo:hi]] on a window. *)
Definition sub_slice (mem : view) (lo hi : Z) : option view :=
  if (0 <=? lo) && (lo <=? hi) && (hi <=? size mem)
  then Some {| base := base mem + lo; size := hi - lo |}
  else None.

(** [binary.LittleEndian.PutUint64(b, v)]: eight bytes, least significant
    first, after the bounds check [_ = b[7]]. *)
Definition PutUint64 (instance : Instance) (b : view) (v : Z)
  : outcome Instance :=
  if 7 <? size b
  then Returns (with_memory instance
                  (list_inserts (Z.to_nat (base b)) (le_split 8 v)
                     (Memory instance)))
  else Panics index_out_of_range.

(** [mem[idx]] *)
Definition view_get (instance : Instance) (mem : view) (idx : Z)
  : outcome byte :=
  if (0 <=? idx) && (idx <? size mem)
  then Returns (Memory instance !!! Z.to_nat (base mem + idx))
  else Panics index_out_of_range.

(** ** [allocateInner] *)
Definition allocateInner (instance : Instance) (data : list byte) : exec Z :=
  let sz := len data in
  match call instance "__allocate" [arg_int sz] with
  | Panics p => Panics p
  | Returns (Err err, instance) => Returns (Err err, instance)
  | Returns (Ok res, instance) =>
      let ptr := ToI32 res in
      match slice_from (Memory instance) ptr with
      | None => Panics slice_bounds_out_of_range
      | Some mem =>
          if size mem <? sz
          then Returns (Err (errors_New "allocateInner: invalid memory size"),
                        instance)
          else Returns (Ok (pack sz ptr), copy instance mem data)
      end
  end.

(** ** [allocate] *)

(** The loop [for idx, each := range data] of [allocate]; [mem] is the
    window taken before the loop. *)
Fixpoint allocate_loop (instance : Instance) (mem : view) (idx : Z)
    (data : list (list byte)) : exec unit :=
  match data with
  | [] => Returns (Ok tt, instance)
  | each :: rest =>
      match allocateInner instance each with
      | Panics p => Panics p
      | Returns (Err err, instance) => Returns (Err err, instance)
      | Returns (Ok loc, instance) =>
          match sub_slice mem (int (8 * idx)) (int (int (8 * idx) + 8)) with
          | None => Panics slice_bounds_out_of_range
          | Some b =>
              match PutUint64 instance b (uint64 loc) with
              | Panics p => Panics p
              | Returns instance => allocate_loop instance mem (idx + 1) rest
              end
          end
      end
  end.

Definition allocate (instance : Instance) (data : list (list byte)) : exec Z :=
  let sz := len data in
  match call instance "__allocate" [arg_int (int (8 * sz))] with
  | Panics p => Panics p
  | Returns (Err err, instance) => Returns (Err err, instance)
  | Returns (Ok res, instance) =>
      let ptr := ToI32 res in
      match slice_from (Memory instance) ptr with
      | None => Panics slice_bounds_out_of_range
      | Some mem =>
          if size mem <? int (8 * sz)
          then Returns (Err (errors_New "allocate: invalid memory size"),
                        instance)
          else
            match allocate_loop instance mem 0 data with
            | Panics p => Panics p
            | Returns (Err err, instance) => Returns (Err err, instance)
            | Returns (Ok _, instance) => Returns (Ok (pack sz ptr), instance)
            end
      end
  end.

(** ** [parseOutput] *)

(** The loop [for idx := 0; idx < sz; idx++ { res[idx] = mem[idx] }];
    [n] is the number of iterations left, [sz - idx]. *)
Fixpoint parseOutput_loop (instance : Instance) (mem : view) (n : nat)
    (idx : Z) (res : list byte) : outcome (list byte) :=
  match n with
  | O => Returns res
  | S n' =>
      match view_get instance mem idx with
      | Panics p => Panics p
      | Returns b =>
          parseOutput_loop instance mem n' (idx + 1) (<[Z.to_nat idx := b]> res)
      end
  end.

Definition parseOutput (instance : Instance) (ptr : Z)
  : outcome (result (list byte)) :=
  let '(sz, pointer) := unpack ptr in
  match slice_from (Memory instance) pointer with
  | None => Panics slice_bounds_out_of_range
  | Some mem =>
      if size mem <? sz
      then Returns (Err (errors_New "parseOutput: invalid memory size"))
      else if sz <? 0 then Panics makeslice_len_out_of_range
      else
        match parseOutput_loop instance mem (Z.to_nat sz) 0
                (replicate (Z.to_nat sz) Byte.x00) with
        | Panics p => Panics p
        | Returns res => Returns (Ok res)
        end
  end.

(** ** [storeParams] *)
Definition storeParams (instance : Instance) (params : list byte) : exec Z :=
  allocateInner instance params.

(** ** The public operations

    [NewInstance] is the engine's instantiation of a module and [IsPrint]
    is [unicode.IsPrint].  [defer instance.Close()] releases the instance
    on every way out, so an operation yields its result alone. *)
Variable NewInstance : list byte -> result Instance.
Variable IsPrint : Z -> bool.

(** The loop of [Name] over the code points of the result. *)
Fixpoint Name_loop (chs : list Z) : bool :=
  match chs with
  | [] => true
  | ch :: rest => if negb (IsPrint ch) then false else Name_loop rest
  end.

Definition Name (code : list byte) : outcome (result (list byte)) :=
  match NewInstance code with
  | Err err => Returns (Err err)
  | Ok instance =>
      match Exports instance !! "__name" with
      | None => Returns (Err (errors_New "__name not implemented"))
      | Some fn =>
          match invoke instance fn [] with
          | (Err err, _) => Returns (Err err)
          | (Ok ptr, instance) =>
              match parseOutput instance (ToI64 ptr) with
              | Panics p => Panics p
              | Returns (Err err) => Returns (Err err)
              | Returns (Ok rawResult) =>
                  if Name_loop (runes rawResult)
                  then Returns (Ok rawResult)
                  else Returns (Err (errors_New "Invalid name character"))
              end
          end
      end
  end.

(** The common tail of the operations: look the export up, fail if it is
    nil, call it and read the result back. *)
Definition lookup_call_parse (instance : Instance) (name : string)
    (args : list arg) : outcome (result (list byte)) :=
  match Exports instance !! name with
  | None => Returns (Err (errors_New (name +:+ " not implemented")))
  | Some fn =>
      match invoke instance fn args with
      | (Err err, _) => Returns (Err err)
      | (Ok ptr, instance) => parseOutput instance (ToI64 ptr)
      end
  end.

Definition ParamsInfo (code : list byte) : outcome (result (list byte)) :=
  match NewInstance code with
  | Err err => Returns (Err err)
  | Ok instance => lookup_call_parse instance "__params_info" []
  end.

Definition ParseParams (code params : list byte)
  : outcome (result (list byte)) :=
  match NewInstance code with
  | Err err => Returns (Err err)
  | Ok instance =>
      match storeParams instance params with
      | Panics p => Panics p
      | Returns (Err err, _) => Returns (Err err)
      | Returns (Ok paramsInput, instance) =>
          lookup_call_parse instance "__parse_params" [arg_int64 paramsInput]
      end
  end.

Definition RawDataInfo (code : list byte) : outcome (result (list byte)) :=
  match NewInstance code with
  | Err err => Returns (Err err)
  | Ok instance => lookup_call_parse instance "__raw_data_info" []
  end.

(** In [ParseRawData] the error of [storeParams] is overwritten by the
    next assignment to [err] before it is looked at; [paramsInput] is then
    the zero value that came with the error. *)
Definition ParseRawData (code params data : list byte)
  : outcome (result (list byte)) :=
  match NewInstance code with
  | Err err => Returns (Err err)
  | Ok instance =>
      match storeParams instance params with
      | Panics p => Panics p
      | Returns (r, instance) =>
          let paramsInput := match r with Ok loc => loc | Err _ => 0 end in
          match allocateInner instance data with
          | Panics p => Panics p
          | Returns (Err err, _) => Returns (Err err)
          | Returns (Ok dataInput, instance) =>
              lookup_call_parse instance "__parse_raw_data"
                [arg_int64 paramsInput; arg_int64 dataInput]
          end
      end
  end.

Definition Prepare (code params : list byte) : outcome (result (list byte)) :=
  match NewInstance code with
  | Err err => Returns (Err err)
  | Ok instance =>
      match storeParams instance params with
      | Panics p => Panics p
      | Returns (Err err, _) => Returns (Err err)
      | Returns (Ok paramsInput, instance) =>
          lookup_call_parse instance "__prepare" [arg_int64 paramsInput]
      end
  end.

Definition Execute (code params : list byte) (inputs : list (list byte))
  : outcome (result (list byte)) :=
  match NewInstance code with
  | Err err => Returns (Err err)
  | Ok instance =>
      match storeParams instance params with
      | Panics p => Panics p
      | Returns (Err err, _) => Returns (Err err)
      | Returns (Ok paramsInput, instance) =>
          match allocate instance inputs with
          | Panics p => Panics p
          | Returns (Err err, _) => Returns (Err err)
          | Returns (Ok wasmInput, instance) =>
              lookup_call_parse instance "__execute"
                [arg_int64 paramsInput; arg_int64 wasmInput]
          end
      end
  end.

End Engine.

Arguments Instance : clear implicits.
Arguments guest_fn : clear implicits.

(** ** Observing an outcome *)

(** Whether a run returned a value (rather than an error or a panic). *)
Definition succeeded {G A : Type} (o : outcome (result A * Instance G)) : bool :=
  match o with
  | Returns (Ok _, _) => true
  | _ => false
  end.

(** The descriptor a run returned, if it returned one. *)
Definition returned_descriptor {G : Type} (o : outcome (result Z * Instance G))
  : option Z :=
  match o with
  | Returns (Ok d, _) => Some d
  | _ => None
  end.

(** The error a run returned, if it returned one. *)
Definition returned_error {G A : Type} (o : outcome (result A * Instance G))
  : option error :=
  match o with
  | Returns (Err err, _) => Some err
  | _ => None
  end.

(** The errors the writers return: the engine's, or their own. *)
Definition write_error (err : error) : Prop :=
  (exists msg, err = engine_error msg) \/
  err = errors_New "allocateInner: invalid memory size" \/
  err = errors_New "allocate: invalid memory size".

(** The errors of the common tail of an operation on the export [name]: one
    the engine handed back from the call, the missing export, or the
    reader's bounds check. *)
Definition read_error (name : string) (err : error) : Prop :=
  (exists msg, err = engine_error msg) \/
  err = errors_New (name +:+ " not implemented") \/
  err = errors_New "parseOutput: invalid memory size".

(** ** The specification's side

    The fields of a descriptor as the specification reads them off the
    64-bit value: the offset is the lower and the length the upper 32 bits,
    both unsigned. *)
Definition descriptor_offset (d : Z) : Z := d mod 2 ^ 32.
Definition descriptor_length (d : Z) : Z := (d / 2 ^ 32) mod 2 ^ 32.

(** The inverse law of the codec is read on the two expressions as the code
    reaches them: a 32-bit [length] is the [int] [sz], and a 32-bit [offset]
    is the [int32] that [ToI32] reads off the allocator's result. *)
Definition codec_inverse_at (length offset : Z) : Prop :=
  unpack (pack length (int32 offset)) = (length, offset).

(** The round trip of one buffer, and its premise that the allocator
    answers the request with an offset (the unsigned 32-bit result) whose
    range lies within the memory. *)
Definition allocator_in_bounds {G : Type} (instance : Instance G)
    (B : list byte) : Prop :=
  exists res instance',
    call instance "__allocate" [arg_int (len B)] = Returns (Ok res, instance') /\
    value_bits res mod 2 ^ 32 + len B <= len (Memory instance').

Definition roundtrip_at {G : Type} (instance : Instance G) (B : list byte) : Prop :=
  exists d instance',
    storeParams instance B = Returns (Ok d, instance') /\
    parseOutput instance' d = Returns (Ok B).

(** The reading side of a buffer array.  The package only writes buffer
    arrays; the guest reads them.  The reader below follows the words of the
    specification: a descriptor is dereferenced only if [offset + length]
    lies within the memory, and the table of an array is [count] consecutive
    little-endian descriptors of eight bytes each, starting at the offset of
    the outer descriptor. *)
Section ReadingArrays.
Context {G : Type}.

Definition dereference (instance : Instance G) (d : Z) : option (list byte) :=
  if descriptor_offset d + descriptor_length d <=? len (Memory instance)
  then Some (take (Z.to_nat (descriptor_length d))
               (drop (Z.to_nat (descriptor_offset d)) (Memory instance)))
  else None.

Definition table_descriptor (instance : Instance G) (tableOffset : Z) (i : nat) : Z :=
  le_combine (take 8 (drop (Z.to_nat tableOffset + 8 * i) (Memory instance))).

Definition read_table (instance : Instance G) (d : Z) : option (list (list byte)) :=
  mapM (dereference instance)
    (map (table_descriptor instance (descriptor_offset d))
       (seq 0 (Z.to_nat (descriptor_length d)))).

End ReadingArrays.

(** The eight bytes [binary.LittleEndian.PutUint64] writes for [uint64(loc)]. *)
Definition entry_bytes (loc : Z) : list byte := le_split 8 (uint64 loc).

(** The bytes [bs] lie in the memory [M] from the address [p] on. *)
Definition stored_at (M : list byte) (p : Z) (bs : list byte) : Prop :=
  0 <= p /\ p + len bs <= len M /\
  forall i : nat, (i < length bs)%nat -> M !! (Z.to_nat p + i)%nat = bs !! i.

(** What the round trips ask of the guest's allocator.  [owned g a] says
    that the allocator, in state [g], has handed out the address [a].  A
    successful call whose range the host accepts hands out fresh addresses,
    keeps the earlier ones and the bytes stored at them, and never shrinks
    the memory. *)
Definition fresh_allocator {G : Type} (owned : G -> Z -> Prop)
    (alloc : guest_fn G) : Prop :=
  forall (n : Z) (mem mem' : list byte) (g g' : G) (res : Value),
    alloc [arg_int n] mem g = ((mem', g'), inl res) ->
    0 <= n -> 0 <= ToI32 res -> ToI32 res + n <= len mem' ->
    (forall a, ToI32 res <= a < ToI32 res + n -> ~ owned g a) /\
    (forall a, ToI32 res <= a < ToI32 res + n -> owned g' a) /\
    (forall a, owned g a -> owned g' a) /\
    (forall a, owned g a -> 0 <= a < len mem ->
               mem' !! Z.to_nat a = mem !! Z.to_nat a) /\
    len mem <= len mem'.

(** The bytes a sequence of buffers takes in all. *)
Definition total_len (data : list (list byte)) : Z :=
  fold_right (fun each acc => len each + acc) 0 data.

(** ** Guests

    A guest whose private state is the next free offset [brk] of a bump
    allocator over a linear memory of at most [2^32] bytes; the allocator
    fails when the request does not fit. *)

Definition bump_allocate : guest_fn Z := fun args mem brk =>
  match args with
  | [arg_int n] =>
      if (0 <=? n) && (0 <=? brk) && (brk + n <=? len mem) && (brk + n <=? 2 ^ 32)
      then ((mem, brk + n), inl {| value_bits := brk |})
      else ((mem, brk), inr "out of memory")
  | _ => ((mem, brk), inr "bad arguments")
  end.

(** The addresses a bump allocator has handed out. *)
Definition bump_owned (brk : Z) (a : Z) : Prop := 0 <= a < brk.

(** An export that returns a fixed descriptor. *)
Definition guest_const (d : Z) : guest_fn Z := fun _ mem brk =>
  ((mem, brk), inl {| value_bits := d |}).

(** An export that hands back its last argument. *)
Definition guest_last : guest_fn Z := fun args mem brk =>
  match last args with
  | Some (arg_int64 d) => ((mem, brk), inl {| value_bits := d |})
  | _ => ((mem, brk), inr "bad arguments")
  end.

Definition bump_guest (exports : list (string * guest_fn Z))
    (mem : list byte) (brk : Z) : Instance Z :=
  {| Exports := list_to_map exports; Memory := mem; guest := brk |}.

(** An engine that instantiates every module as the given instance. *)
Definition fixed_engine {G : Type} (instance : Instance G)
  : list byte -> result (Instance G) :=
  fun _ => Ok instance.

Definition zeros (n : nat) : list byte := replicate n Byte.x00.

(** 32 bytes of memory, the allocator, and a [__parse_raw_data] that
    returns the descriptor of its data argument. *)
Definition echo_guest : Instance Z :=
  bump_guest [("__allocate", bump_allocate); ("__parse_raw_data", guest_last)]
    (zeros 32) 0.

(** 32 bytes of memory and the allocator alone. *)
Definition bare : Instance Z :=
  bump_guest [("__allocate", bump_allocate)] (zeros 32) 0.

(** Four bytes of memory and no exports. *)
Definition four_bytes : Instance Z := bump_guest [] (zeros 4) 0.

(** 64 bytes of memory, the allocator, and operations that hand back their
    last argument. *)
Definition mirror_guest : Instance Z :=
  bump_guest [("__allocate", bump_allocate); ("__parse_params", guest_last);
              ("__prepare", guest_last); ("__parse_raw_data", guest_last);
              ("__execute", guest_last)]
    (zeros 64) 0.

(** A [__name] whose descriptor points past the end of a memory of four
    bytes. *)
Definition named_past_end : Instance Z :=
  bump_guest [("__name", guest_const (pack 1 8))] (zeros 4) 0.

(** An export that writes [bs] at the offset [p] of the memory and returns
    their descriptor. *)
Definition guest_write (bs : list byte) (p : Z) : guest_fn Z := fun _ mem brk =>
  ((list_inserts (Z.to_nat p) bs mem, brk), inl {| value_bits := pack (len bs) p |}).

(** An allocator that answers every request with the offset 0. *)
Definition overlapping_guest : Instance Z :=
  bump_guest [("__allocate", guest_const 0)] (zeros 32) 0.

(** An allocator that moves on by 40 bytes at every request, whatever the
    size of the memory, over 32 bytes of memory: the first answer lies
    within the memory and the second one past its end. *)
Definition leaping_allocate : guest_fn Z := fun _ mem brk =>
  ((mem, brk + 40), inl {| value_bits := brk |}).

Definition leaping_guest : Instance Z :=
  bump_guest [("__allocate", leaping_allocate)] (zeros 32) 0.

(** Four bytes of memory and the operations, without the allocator. *)
Definition no_allocator : Instance Z :=
  bump_guest [("__parse_params", guest_last); ("__prepare", guest_last);
              ("__parse_raw_data", guest_last); ("__execute", guest_last)]
    (zeros 4) 0.

(** An allocator that has reached the offset [2^31] of a memory that
    extends eight bytes beyond it. *)
Definition high_guest : Instance Z :=
  bump_guest [("__allocate", bump_allocate)] (zeros (Z.to_nat (2 ^ 31 + 8)))
    (2 ^ 31).

(** A fresh allocator over a memory of [2^31 + 8] bytes. *)
Definition wide_guest : Instance Z :=
  bump_guest [("__allocate", bump_allocate)] (zeros (Z.to_nat (2 ^ 31 + 8))) 0.

(** Guests whose [__name] points at the first three bytes of the memory:
    the letters [abc], and [a], a line feed, [b]. *)
Definition named_abc : Instance Z :=
  bump_guest [("__name", guest_const (pack 3 0))]
    ([Byte.x61; Byte.x62; Byte.x63] ++ zeros 5) 3.

Definition named_line_feed : Instance Z :=
  bump_guest [("__name", guest_const (pack 3 0))]
    ([Byte.x61; Byte.x0a; Byte.x62] ++ zeros 5) 3.

(** The printable characters of ASCII, standing in for [unicode.IsPrint]
    where a concrete table is needed. *)
Definition ascii_print (ch : Z) : bool := (0x20 <=? ch) && (ch <=? 0x7E).

(** Buffers. *)
Definition bytes_123 : list byte := [Byte.x01; Byte.x02; Byte.x03].

Definition long_buffer : list byte := zeros (Z.to_nat (2 ^ 31)).

(** Three buffers, the last one empty. *)
Definition three_buffers : list (list byte) := [bytes_123; [Byte.x07]; []].

(** Two buffers of which the second does not fit 32 bytes of memory. *)
Definition too_much : list (list byte) := [bytes_123; zeros 40].

(** Eight bytes of memory and the two descriptions, each written by its
    export when it is called. *)
Definition info_guest : Instance Z :=
  bump_guest [("__params_info", guest_write bytes_123 4);
              ("__raw_data_info", guest_write [Byte.x07] 0)]
    (zeros 8) 0.

(** * Properties *)

(** ** Integer conversions *)

Lemma wrap_id (w z : Z) :
  0 < w -> - 2 ^ (w - 1) <= z < 2 ^ (w - 1) -> wrap w z = z.
Proof.
  intros Hw Hz. unfold wrap.
  assert (Hp : 2 ^ w = 2 * 2 ^ (w - 1)).
  { rewrite <- Z.pow_succ_r by lia. f_equal. lia. }
  rewrite Z.mod_small by lia. lia.
Qed.

Lemma int32_id (z : Z) : - 2 ^ 31 <= z < 2 ^ 31 -> int32 z = z.
Proof. intros. apply wrap_id; simpl; lia. Qed.

Lemma int64_id (z : Z) : - 2 ^ 63 <= z < 2 ^ 63 -> int64 z = z.
Proof. intros. apply wrap_id; simpl; lia. Qed.

Lemma int_id (z : Z) : - 2 ^ 63 <= z < 2 ^ 63 -> int z = z.
Proof. intros. apply wrap_id; simpl; lia. Qed.

Lemma int32_high (z : Z) : 2 ^ 31 <= z < 2 ^ 32 -> int32 z = z - 2 ^ 32.
Proof.
  intros Hz. unfold int32, wrap. change (32 - 1) with 31.
  replace (z + 2 ^ 31) with (z - 2 ^ 31 + 1 * 2 ^ 32) by lia.
  rewrite Z.mod_add by lia. rewrite Z.mod_small by lia. lia.
Qed.

Lemma int32_range (z : Z) : - 2 ^ 31 <= int32 z < 2 ^ 31.
Proof.
  unfold int32, wrap.
  pose proof (Z.mod_pos_bound (z + 2 ^ (32 - 1)) (2 ^ 32) ltac:(lia)).
  simpl in *. lia.
Qed.

Lemma int64_range (z : Z) : - 2 ^ 63 <= int64 z < 2 ^ 63.
Proof.
  unfold int64, wrap.
  pose proof (Z.mod_pos_bound (z + 2 ^ (64 - 1)) (2 ^ 64) ltac:(lia)).
  simpl in *. lia.
Qed.

(** ** Bits of a value made of a high part and a low 32-bit part *)

Lemma low_bits_above (b n : Z) : 0 <= b < 2 ^ 32 -> 32 <= n -> Z.testbit b n = false.
Proof.
  intros Hb Hn. destruct (Z.eq_dec b 0) as [->|Hne]; [apply Z.bits_0|].
  apply Z.bits_above_log2; [lia|].
  apply Z.lt_le_trans with 32; [|lia]. apply Z.log2_lt_pow2; lia.
Qed.

Lemma lor_high_low (a b : Z) :
  0 <= b < 2 ^ 32 -> Z.lor (a * 2 ^ 32) b = a * 2 ^ 32 + b.
Proof.
  intros Hb. rewrite <- Z.shiftl_mul_pow2 by lia.
  assert (Hland : Z.land (Z.shiftl a 32) b = 0).
  { apply Z.bits_inj'; intros n Hn. rewrite Z.land_spec, Z.bits_0.
    destruct (Z.ltb_spec n 32).
    - rewrite Z.shiftl_spec_low by lia. reflexivity.
    - rewrite (low_bits_above b n) by lia. apply andb_false_r. }
  rewrite <- Z.lxor_lor by exact Hland. symmetry. apply Z.add_nocarry_lxor, Hland.
Qed.

Lemma testbit_high_low (a b n : Z) :
  0 <= b < 2 ^ 32 -> 0 <= n ->
  Z.testbit (a * 2 ^ 32 + b) n = if n <? 32 then Z.testbit b n else Z.testbit a (n - 32).
Proof.
  intros Hb Hn. rewrite <- lor_high_low by exact Hb.
  rewrite <- Z.shiftl_mul_pow2 by lia. rewrite Z.lor_spec.
  destruct (Z.ltb_spec n 32).
  - rewrite Z.shiftl_spec_low by lia. reflexivity.
  - rewrite Z.shiftl_spec by lia. rewrite (low_bits_above b n) by lia.
    apply orb_false_r.
Qed.

Lemma lor_high_low_pair (a1 b1 a2 b2 : Z) :
  0 <= b1 < 2 ^ 32 -> 0 <= b2 < 2 ^ 32 ->
  Z.lor (a1 * 2 ^ 32 + b1) (a2 * 2 ^ 32 + b2) = Z.lor a1 a2 * 2 ^ 32 + Z.lor b1 b2.
Proof.
  intros H1 H2.
  assert (Hlog : forall b, 0 <= b < 2 ^ 32 -> Z.log2 b < 32).
  { intros b Hb. destruct (Z.eq_dec b 0) as [->|]; [reflexivity|].
    apply Z.log2_lt_pow2; lia. }
  assert (H12 : 0 <= Z.lor b1 b2 < 2 ^ 32).
  { assert (0 <= Z.lor b1 b2) by (apply Z.lor_nonneg; lia).
    split; [assumption|].
    destruct (Z.eq_dec (Z.lor b1 b2) 0) as [->|Hne]; [lia|].
    apply Z.log2_lt_pow2; [lia|].
    rewrite Z.log2_lor by lia. apply Z.max_lub_lt; apply Hlog; assumption. }
  apply Z.bits_inj'; intros n Hn.
  rewrite Z.lor_spec, !testbit_high_low by assumption.
  destruct (n <? 32); rewrite Z.lor_spec; reflexivity.
Qed.

(** ** The codec *)

Lemma shiftl_32 (z : Z) : Z.shiftl z 32 = z * 2 ^ 32.
Proof. apply Z.shiftl_mul_pow2. lia. Qed.

Lemma mask_32 : Z.shiftl 1 32 - 1 = Z.ones 32.
Proof. reflexivity. Qed.

Lemma unpack_high_low (a b : Z) :
  - 2 ^ 31 <= a < 2 ^ 31 -> 0 <= b < 2 ^ 32 -> unpack (a * 2 ^ 32 + b) = (a, b).
Proof.
  intros Ha Hb. unfold unpack. rewrite mask_32, Z.land_ones by lia.
  rewrite Z.shiftr_div_pow2 by lia.
  rewrite Z.add_comm, Z.div_add, Z.mod_add by lia.
  rewrite Z.div_small, Z.mod_small by lia. simpl.
  rewrite int_id by lia. reflexivity.
Qed.

(** The packed value when both arguments are non-negative and the offset
    fits 31 bits: the high part is the length as a signed 32-bit number. *)
Lemma pack_nonneg_offset (sz ptr : Z) :
  0 <= sz < 2 ^ 32 -> 0 <= ptr < 2 ^ 31 ->
  pack sz ptr = (if sz <? 2 ^ 31 then sz else sz - 2 ^ 32) * 2 ^ 32 + ptr.
Proof.
  intros Hsz Hptr. unfold pack. rewrite shiftl_32.
  rewrite (int64_id ptr) by lia.
  assert (Hint : int (sz * 2 ^ 32) = (if sz <? 2 ^ 31 then sz else sz - 2 ^ 32) * 2 ^ 32).
  { destruct (Z.ltb_spec sz (2 ^ 31)).
    - apply int_id. lia.
    - unfold int, wrap. change (64 - 1) with 63.
      replace (sz * 2 ^ 32 + 2 ^ 63)
        with ((sz - 2 ^ 32) * 2 ^ 32 + 2 ^ 63 + 1 * 2 ^ 64) by lia.
      rewrite Z.mod_add by lia. rewrite Z.mod_small by lia. lia. }
  rewrite Hint. rewrite int64_id by (destruct (Z.ltb_spec sz (2 ^ 31)); lia).
  apply lor_high_low. lia.
Qed.

(** The packed value when the offset is negative as an [int32]: the sign
    extension of [int64(ptr)] overwrites the length. *)
Lemma pack_negative_offset (sz ptr : Z) :
  - 2 ^ 31 <= ptr < 0 -> pack sz ptr = ptr.
Proof.
  intros Hptr. unfold pack. rewrite shiftl_32.
  rewrite (int64_id ptr) by lia.
  rewrite (int64_id (int _)) by apply int64_range.
  assert (Hm : int (sz * 2 ^ 32)
               = (sz - 2 ^ 32 * ((sz * 2 ^ 32 + 2 ^ 63) / 2 ^ 64)) * 2 ^ 32 + 0).
  { unfold int, wrap. change (64 - 1) with 63.
    rewrite Z.mod_eq by lia. lia. }
  rewrite Hm.
  replace ptr with ((-1) * 2 ^ 32 + (ptr + 2 ^ 32)) at 1 by lia.
  rewrite lor_high_low_pair by lia.
  rewrite Z.lor_m1_r, Z.lor_0_l. lia.
Qed.

(** C3, as amended.  On 32-bit pairs the two expressions are inverse exactly
    when both fields are below [2^31]: a larger offset is a negative [int32]
    whose sign extension overwrites the length, and a larger length comes
    back negative from the arithmetic shift. *)
Theorem codec_inverse_iff (length offset : Z) :
  0 <= length < 2 ^ 32 -> 0 <= offset < 2 ^ 32 ->
  codec_inverse_at length offset <-> length < 2 ^ 31 /\ offset < 2 ^ 31.
Proof.
  intros Hl Ho. unfold codec_inverse_at.
  destruct (Z.ltb_spec offset (2 ^ 31)) as [Hlow|Hhigh].
  - rewrite int32_id by lia. rewrite pack_nonneg_offset by lia.
    rewrite unpack_high_low by (destruct (Z.ltb_spec length (2 ^ 31)); lia).
    destruct (Z.ltb_spec length (2 ^ 31)); split.
    + intros _. lia.
    + reflexivity.
    + intros Heq. injection Heq. lia.
    + lia.
  - rewrite int32_high by lia. rewrite pack_negative_offset by lia.
    replace (offset - 2 ^ 32) with ((-1) * 2 ^ 32 + offset) by lia.
    rewrite unpack_high_low by lia. split.
    + intros Heq. injection Heq. lia.
    + lia.
Qed.

Lemma codec_inverse_iff_witness :
  0 <= 3 < 2 ^ 32 /\ 0 <= 16 < 2 ^ 32 /\
  (codec_inverse_at 3 16 <-> 3 < 2 ^ 31 /\ 16 < 2 ^ 31).
Proof.
  split; [lia|]. split; [lia|]. apply (codec_inverse_iff 3 16); lia.
Defined.

(** C3, as stated, fails at the pairs (0, 2^31) and (2^31, 0): the first
    comes back with the length -1, the second with the length -2^31. *)
Lemma codec_inverse_fails_beyond_int32 :
  unpack (pack 0 (int32 (2 ^ 31))) = (-1, 2 ^ 31) /\
  unpack (pack (2 ^ 31) (int32 0)) = (- 2 ^ 31, 0) /\
  ~ codec_inverse_at 0 (2 ^ 31) /\ ~ codec_inverse_at (2 ^ 31) 0.
Proof.
  split; [reflexivity|]. split; [reflexivity|].
  unfold codec_inverse_at. split; vm_compute; discriminate.
Qed.

(** ** Windows and the reading loop *)

Lemma len_nonneg {A : Type} (l : list A) : 0 <= len l.
Proof. unfold len. lia. Qed.

Lemma slice_from_Some (data : list byte) (low : Z) :
  0 <= low <= len data ->
  slice_from data low = Some {| base := low; size := len data - low |}.
Proof.
  intros H. unfold slice_from.
  destruct (Z.leb_spec 0 low); [|lia]. destruct (Z.leb_spec low (len data)); [|lia].
  reflexivity.
Qed.

Lemma slice_from_None (data : list byte) (low : Z) :
  low < 0 \/ len data < low -> slice_from data low = None.
Proof.
  intros H. unfold slice_from.
  destruct (Z.leb_spec 0 low); [|reflexivity].
  destruct (Z.leb_spec low (len data)); [lia|reflexivity].
Qed.

Lemma unpack_offset (ptr : Z) : snd (unpack ptr) = descriptor_offset ptr.
Proof. unfold unpack, descriptor_offset. simpl. rewrite mask_32. apply Z.land_ones. lia. Qed.

Lemma descriptor_offset_range (d : Z) : 0 <= descriptor_offset d < 2 ^ 32.
Proof. apply Z.mod_pos_bound. lia. Qed.

Lemma unpack_length (ptr : Z) :
  - 2 ^ 63 <= ptr < 2 ^ 63 ->
  fst (unpack ptr) =
    if descriptor_length ptr <? 2 ^ 31 then descriptor_length ptr
    else descriptor_length ptr - 2 ^ 32.
Proof.
  intros Hr. unfold unpack, descriptor_length. simpl.
  rewrite Z.shiftr_div_pow2 by lia.
  assert (Hq : - 2 ^ 31 <= ptr / 2 ^ 32 < 2 ^ 31).
  { split.
    - apply Z.div_le_lower_bound; lia.
    - apply Z.div_lt_upper_bound; lia. }
  rewrite int_id by lia.
  destruct (Z.leb_spec 0 (ptr / 2 ^ 32)).
  - rewrite Z.mod_small by lia. destruct (Z.ltb_spec (ptr / 2 ^ 32) (2 ^ 31)); lia.
  - rewrite <- (Z.mod_unique (ptr / 2 ^ 32) (2 ^ 32) (-1) (ptr / 2 ^ 32 + 2 ^ 32))
      by lia.
    destruct (Z.ltb_spec (ptr / 2 ^ 32 + 2 ^ 32) (2 ^ 31)); lia.
Qed.

Section Reading.
Context {G : Type}.
Implicit Types (instance : Instance G) (mem : view).

Lemma lookup_memory instance (k : nat) :
  (k < length (Memory instance))%nat ->
  Memory instance !! k = Some (Memory instance !!! k).
Proof. apply list_lookup_lookup_total_lt. Qed.

Lemma parseOutput_loop_spec instance mem :
  0 <= base mem -> base mem + size mem <= len (Memory instance) ->
  forall (n : nat) (idx : Z) (res : list byte),
    0 <= idx -> idx + Z.of_nat n <= size mem ->
    length res = (Z.to_nat idx + n)%nat ->
    parseOutput_loop instance mem n idx res
    = Returns (take (Z.to_nat idx) res
               ++ take n (drop (Z.to_nat (base mem + idx)) (Memory instance))).
Proof.
  intros Hbase Hfit. unfold len in Hfit.
  induction n as [|n IH]; intros idx res Hidx Hn Hlen; simpl.
  - rewrite app_nil_r, take_ge by lia. reflexivity.
  - unfold view_get.
    destruct (Z.leb_spec 0 idx); [|lia]. destruct (Z.ltb_spec idx (size mem)); [|lia].
    simpl. rewrite IH by (rewrite ?length_insert; lia).
    f_equal.
    replace (Z.to_nat (idx + 1)) with (S (Z.to_nat idx)) by lia.
    replace (Z.to_nat (base mem + (idx + 1)))
      with (S (Z.to_nat (base mem + idx))) by lia.
    erewrite take_S_r by (apply list_lookup_insert_eq; lia).
    rewrite take_insert_ge by lia.
    rewrite <- app_assoc. f_equal. simpl.
    rewrite (drop_S (Memory instance) (Memory instance !!! Z.to_nat (base mem + idx))
               (Z.to_nat (base mem + idx))) by (apply lookup_memory; lia).
    reflexivity.
Qed.

(** A descriptor that lies within the memory and has a non-negative
    length is read back as the bytes of its range. *)
Lemma parseOutput_in_range instance (ptr sz pointer : Z) :
  unpack ptr = (sz, pointer) ->
  0 <= sz -> 0 <= pointer -> pointer + sz <= len (Memory instance) ->
  parseOutput instance ptr
  = Returns (Ok (take (Z.to_nat sz) (drop (Z.to_nat pointer) (Memory instance)))).
Proof.
  intros Hu Hsz Hp Hfit. unfold parseOutput. rewrite Hu.
  pose proof (len_nonneg (Memory instance)).
  rewrite slice_from_Some by lia. simpl.
  destruct (Z.ltb_spec (len (Memory instance) - pointer) sz); [lia|].
  destruct (Z.ltb_spec sz 0); [lia|].
  rewrite parseOutput_loop_spec; simpl; rewrite ?length_replicate; try lia.
  rewrite Z.add_0_r. reflexivity.
Qed.

(** The check [len(mem) < sz] of [parseOutput]. *)
Lemma parseOutput_rejects instance (ptr sz pointer : Z) :
  unpack ptr = (sz, pointer) ->
  0 <= pointer <= len (Memory instance) ->
  len (Memory instance) < pointer + sz ->
  parseOutput instance ptr
  = Returns (Err (errors_New "parseOutput: invalid memory size")).
Proof.
  intros Hu Hp Hfit. unfold parseOutput. rewrite Hu.
  rewrite slice_from_Some by lia. simpl.
  destruct (Z.ltb_spec (len (Memory instance) - pointer) sz); [reflexivity|lia].
Qed.

Lemma parseOutput_negative_length instance (ptr sz pointer : Z) :
  unpack ptr = (sz, pointer) ->
  0 <= pointer <= len (Memory instance) -> sz < 0 ->
  parseOutput instance ptr = Panics makeslice_len_out_of_range.
Proof.
  intros Hu Hp Hsz. unfold parseOutput. rewrite Hu.
  rewrite slice_from_Some by lia. simpl.
  destruct (Z.ltb_spec (len (Memory instance) - pointer) sz); [lia|].
  destruct (Z.ltb_spec sz 0); [reflexivity|lia].
Qed.

(** C1.  A descriptor whose offset alone lies past the end of the memory
    makes [parseOutput] panic on the slice expression
    [instance.Memory.Data()[pointer:]], before the size check that would
    return the error is reached. *)
Theorem parseOutput_offset_past_end instance (ptr : Z) :
  len (Memory instance) < descriptor_offset ptr ->
  parseOutput instance ptr = Panics slice_bounds_out_of_range.
Proof.
  intros Hpast. unfold parseOutput.
  destruct (unpack ptr) as [sz pointer] eqn:Hu.
  assert (pointer = descriptor_offset ptr) as ->
    by (rewrite <- unpack_offset, Hu; reflexivity).
  rewrite slice_from_None by lia. reflexivity.
Qed.

(** Within the memory, and for a length below [2^31], an excessive
    descriptor is rejected with the error. *)
Lemma parseOutput_rejects_in_range instance (ptr : Z) :
  - 2 ^ 63 <= ptr < 2 ^ 63 ->
  descriptor_offset ptr <= len (Memory instance) ->
  descriptor_length ptr < 2 ^ 31 ->
  len (Memory instance) < descriptor_offset ptr + descriptor_length ptr ->
  parseOutput instance ptr
  = Returns (Err (errors_New "parseOutput: invalid memory size")).
Proof.
  intros Hr Ho Hl Hex.
  pose proof (descriptor_offset_range ptr).
  apply parseOutput_rejects with (sz := descriptor_length ptr)
                                 (pointer := descriptor_offset ptr); try lia.
  rewrite (surjective_pairing (unpack ptr)), unpack_offset, unpack_length by lia.
  destruct (Z.ltb_spec (descriptor_length ptr) (2 ^ 31)); [reflexivity|lia].
Qed.

(** A length of [2^31] or more is negative after [int(ptr>>32)]: it passes
    the size check and [make([]byte, sz)] panics. *)
Lemma parseOutput_length_past_int32 instance (ptr : Z) :
  - 2 ^ 63 <= ptr < 2 ^ 63 ->
  descriptor_offset ptr <= len (Memory instance) ->
  2 ^ 31 <= descriptor_length ptr ->
  parseOutput instance ptr = Panics makeslice_len_out_of_range.
Proof.
  intros Hr Ho Hl.
  pose proof (descriptor_offset_range ptr).
  assert (descriptor_length ptr < 2 ^ 32) by (apply Z.mod_pos_bound; lia).
  apply parseOutput_negative_length
    with (sz := descriptor_length ptr - 2 ^ 32) (pointer := descriptor_offset ptr);
    try lia.
  rewrite (surjective_pairing (unpack ptr)), unpack_offset, unpack_length by lia.
  destruct (Z.ltb_spec (descriptor_length ptr) (2 ^ 31)); [lia|reflexivity].
Qed.

(** What [parseOutput] returns is never truncated and never read out of
    range: a returned buffer is the whole range of the descriptor, and that
    range lies within the memory. *)
Lemma parseOutput_Ok_exact instance (ptr : Z) (res : list byte) :
  parseOutput instance ptr = Returns (Ok res) ->
  0 <= fst (unpack ptr) /\
  snd (unpack ptr) + fst (unpack ptr) <= len (Memory instance) /\
  len res = fst (unpack ptr) /\
  res = take (Z.to_nat (fst (unpack ptr)))
          (drop (Z.to_nat (snd (unpack ptr))) (Memory instance)).
Proof.
  intros Hrun. pose proof (descriptor_offset_range ptr) as Hp.
  rewrite <- unpack_offset in Hp.
  destruct (unpack ptr) as [sz pointer] eqn:Hu. cbn [fst snd] in *.
  destruct (Z.le_gt_cases pointer (len (Memory instance))) as [Hin|Hout].
  - destruct (Z.lt_ge_cases (len (Memory instance)) (pointer + sz)) as [Hex|Hfit].
    + rewrite (parseOutput_rejects _ _ _ _ Hu) in Hrun by lia. discriminate.
    + destruct (Z.lt_ge_cases sz 0) as [Hneg|Hpos].
      * rewrite (parseOutput_negative_length _ _ _ _ Hu) in Hrun by lia.
        discriminate.
      * rewrite (parseOutput_in_range _ _ _ _ Hu) in Hrun by lia.
        injection Hrun as <-. repeat split; try lia.
        unfold len in *. rewrite length_take, length_drop. lia.
  - unfold parseOutput in Hrun. rewrite Hu in Hrun.
    rewrite slice_from_None in Hrun by lia. discriminate.
Qed.

End Reading.

(** C1 at a memory of four bytes and the descriptor of length 1 at offset 5:
    the range exceeds the memory and the outcome is a panic, not the error. *)
Lemma parseOutput_offset_past_end_witness :
  len (Memory four_bytes) < descriptor_offset (pack 1 5) /\
  parseOutput four_bytes (pack 1 5) = Panics slice_bounds_out_of_range.
Proof.
  split; [reflexivity|].
  apply (parseOutput_offset_past_end four_bytes (pack 1 5)). reflexivity.
Defined.

(** ** Writing one buffer *)

Lemma int32_mod (z : Z) : int32 (z mod 2 ^ 32) = int32 z.
Proof. unfold int32, wrap. rewrite Zplus_mod_idemp_l. reflexivity. Qed.

Lemma ToI32_unsigned (res : Value) :
  value_bits res mod 2 ^ 32 < 2 ^ 31 -> ToI32 res = value_bits res mod 2 ^ 32.
Proof.
  intros H. unfold ToI32. rewrite <- int32_mod. apply int32_id.
  pose proof (Z.mod_pos_bound (value_bits res) (2 ^ 32) ltac:(lia)). lia.
Qed.

Lemma ToI32_negative (res : Value) :
  2 ^ 31 <= value_bits res mod 2 ^ 32 -> ToI32 res < 0.
Proof.
  intros H. unfold ToI32. rewrite <- int32_mod.
  pose proof (Z.mod_pos_bound (value_bits res) (2 ^ 32) ltac:(lia)).
  rewrite int32_high by lia. lia.
Qed.

(** Reading back the range that [list_inserts] has just filled. *)
Lemma take_drop_inserts (p : nat) (data M : list byte) :
  (p + length data <= length M)%nat ->
  take (length data) (drop p (list_inserts p data M)) = data.
Proof.
  intros Hfit. apply list_eq. intros i.
  destruct (Nat.lt_ge_cases i (length data)) as [Hi|Hi].
  - rewrite lookup_take_lt, lookup_drop by lia.
    rewrite list_lookup_inserts by lia. f_equal. lia.
  - rewrite lookup_take_ge by lia. symmetry. apply lookup_ge_None. lia.
Qed.

Lemma bump_allocate_inv (n : Z) (mem mem' : list byte) (brk brk' : Z) (res : Value) :
  bump_allocate [arg_int n] mem brk = ((mem', brk'), inl res) ->
  0 <= n /\ 0 <= brk /\ brk + n <= len mem /\ brk + n <= 2 ^ 32 /\
  mem' = mem /\ brk' = brk + n /\ res = {| value_bits := brk |}.
Proof.
  unfold bump_allocate.
  destruct (Z.leb_spec 0 n); simpl; [|discriminate].
  destruct (Z.leb_spec 0 brk); simpl; [|discriminate].
  destruct (Z.leb_spec (brk + n) (len mem)); simpl; [|discriminate].
  destruct (Z.leb_spec (brk + n) (2 ^ 32)); simpl; [|discriminate].
  intros Heq. injection Heq as Hm Hb Hr. subst mem' brk' res.
  repeat split; assumption.
Qed.

Lemma bump_allocate_ok (n : Z) (mem : list byte) (brk : Z) :
  0 <= n -> 0 <= brk -> brk + n <= len mem -> brk + n <= 2 ^ 32 ->
  bump_allocate [arg_int n] mem brk = ((mem, brk + n), inl {| value_bits := brk |}).
Proof.
  intros. unfold bump_allocate.
  destruct (Z.leb_spec 0 n); [|lia]. destruct (Z.leb_spec 0 brk); [|lia].
  destruct (Z.leb_spec (brk + n) (len mem)); [|lia].
  destruct (Z.leb_spec (brk + n) (2 ^ 32)); [|lia]. reflexivity.
Qed.

Lemma len_zeros (n : nat) : len (zeros n) = Z.of_nat n.
Proof. unfold len, zeros. rewrite length_replicate. reflexivity. Qed.

Section Writing.
Context {G : Type}.
Implicit Types (instance : Instance G) (data : list byte).

Lemma allocateInner_ok instance instance' data (res : Value) :
  call instance "__allocate" [arg_int (len data)] = Returns (Ok res, instance') ->
  0 <= ToI32 res -> ToI32 res + len data <= len (Memory instance') ->
  allocateInner instance data
  = Returns (Ok (pack (len data) (ToI32 res)),
             with_memory instance'
               (list_inserts (Z.to_nat (ToI32 res)) data (Memory instance'))).
Proof.
  intros Hcall Hlow Hfit. unfold allocateInner. rewrite Hcall.
  pose proof (len_nonneg data).
  rewrite slice_from_Some by lia. simpl.
  destruct (Z.ltb_spec (len (Memory instance') - ToI32 res) (len data)); [lia|].
  unfold copy. simpl. rewrite take_ge by (unfold len in *; lia). reflexivity.
Qed.

(** An offset of [2^31] or more is a negative [int32], and the slice
    expression [instance.Memory.Data()[ptr:]] panics on it. *)
Lemma allocateInner_negative_offset instance instance' data (res : Value) :
  call instance "__allocate" [arg_int (len data)] = Returns (Ok res, instance') ->
  ToI32 res < 0 ->
  allocateInner instance data = Panics slice_bounds_out_of_range.
Proof.
  intros Hcall Hneg. unfold allocateInner. rewrite Hcall.
  rewrite slice_from_None by lia. reflexivity.
Qed.

(** C2, as amended.  When the allocator answers with an offset below
    [2^31] whose range lies within the memory, a buffer shorter than
    [2^31] bytes is stored and read back unchanged. *)
Theorem store_parse_roundtrip instance instance' (B : list byte) (res : Value) :
  call instance "__allocate" [arg_int (len B)] = Returns (Ok res, instance') ->
  value_bits res mod 2 ^ 32 + len B <= len (Memory instance') ->
  value_bits res mod 2 ^ 32 < 2 ^ 31 ->
  len B < 2 ^ 31 ->
  roundtrip_at instance B.
Proof.
  intros Hcall Hfit Hoff HB.
  pose proof (Z.mod_pos_bound (value_bits res) (2 ^ 32) ltac:(lia)) as Hpos.
  pose proof (len_nonneg B) as HB0.
  rewrite <- (ToI32_unsigned res Hoff) in Hfit, Hpos.
  assert (Hhigh : ToI32 res < 2 ^ 31) by (rewrite (ToI32_unsigned res Hoff); lia).
  unfold roundtrip_at, storeParams.
  eexists _, _. split; [apply (allocateInner_ok _ _ _ _ Hcall); lia|].
  erewrite parseOutput_in_range; cycle 1.
  - rewrite pack_nonneg_offset by lia.
    destruct (Z.ltb_spec (len B) (2 ^ 31)); [|lia].
    apply unpack_high_low; lia.
  - lia.
  - lia.
  - simpl. unfold len. rewrite length_inserts. exact Hfit.
  - simpl. unfold len. rewrite Nat2Z.id.
    rewrite take_drop_inserts by (unfold len in *; lia). reflexivity.
Qed.

End Writing.

Lemma store_parse_roundtrip_witness :
  call echo_guest "__allocate" [arg_int (len bytes_123)]
    = Returns (Ok {| value_bits := 0 |}, with_state echo_guest (zeros 32, 3)) /\
  roundtrip_at echo_guest bytes_123.
Proof.
  split; [reflexivity|].
  apply (store_parse_roundtrip echo_guest (with_state echo_guest (zeros 32, 3)) bytes_123
           {| value_bits := 0 |}).
  - reflexivity.
  - vm_compute. discriminate.
  - reflexivity.
  - reflexivity.
Defined.

(** C2, as stated, fails when the in-bounds offset is [2^31]: storing panics
    on the negative [int32] and no descriptor comes back. *)
Lemma call_high_guest :
  call high_guest "__allocate" [arg_int (len bytes_123)]
  = Returns (Ok {| value_bits := 2 ^ 31 |},
             with_state high_guest (zeros (Z.to_nat (2 ^ 31 + 8)), 2 ^ 31 + 3)).
Proof.
  unfold call, invoke, high_guest, bump_guest.
  cbn [Exports Memory guest].
  change (list_to_map [("__allocate", bump_allocate)] !! "__allocate")
    with (Some bump_allocate).
  cbv beta iota. rewrite bump_allocate_ok; [reflexivity| | | |].
  - unfold len. lia.
  - lia.
  - rewrite len_zeros, Z2Nat.id by lia. change (len bytes_123) with 3. lia.
  - change (len bytes_123) with 3. lia.
Qed.

Lemma roundtrip_fails_at_high_offset :
  allocator_in_bounds high_guest bytes_123 /\ ~ roundtrip_at high_guest bytes_123.
Proof.
  split.
  - eexists _, _. split; [apply call_high_guest|].
    cbn [with_state Memory value_bits fst].
    rewrite len_zeros, Z2Nat.id by lia. change (len bytes_123) with 3.
    rewrite Z.mod_small by lia. lia.
  - intros (d & instance' & Hstore & _). unfold storeParams in Hstore.
    rewrite (allocateInner_negative_offset _ _ _ _ call_high_guest) in Hstore.
    + discriminate.
    + apply ToI32_negative. cbn [value_bits]. rewrite Z.mod_small by lia. lia.
Qed.

(** A buffer of [2^31] bytes is stored, and the descriptor that comes back
    carries a negative length for [parseOutput]: [make([]byte, sz)] panics. *)
Lemma len_long_buffer : len long_buffer = 2 ^ 31.
Proof. unfold long_buffer. rewrite len_zeros. apply Z2Nat.id. lia. Qed.

Lemma len_wide_memory : len (zeros (Z.to_nat (2 ^ 31 + 8))) = 2 ^ 31 + 8.
Proof. rewrite len_zeros. apply Z2Nat.id. lia. Qed.

Lemma pack_long (p : Z) :
  0 <= p < 2 ^ 31 -> unpack (pack (2 ^ 31) p) = (- 2 ^ 31, p).
Proof.
  intros Hp. rewrite pack_nonneg_offset by lia.
  destruct (Z.ltb_spec (2 ^ 31) (2 ^ 31)); [lia|].
  apply unpack_high_low; lia.
Qed.

Lemma long_store_unreadable {G : Type} (instance instance' instance'' : Instance G)
    (B : list byte) (res : Value) (d : Z) :
  call instance "__allocate" [arg_int (len B)] = Returns (Ok res, instance') ->
  0 <= ToI32 res -> ToI32 res + len B <= len (Memory instance') ->
  len B = 2 ^ 31 ->
  storeParams instance B = Returns (Ok d, instance'') ->
  parseOutput instance'' d = Panics makeslice_len_out_of_range.
Proof.
  intros Hcall Hlow Hfit Hlong. unfold storeParams.
  rewrite (allocateInner_ok _ _ _ _ Hcall Hlow Hfit).
  intros Heq. injection Heq as <- <-.
  pose proof (int32_range (value_bits res)) as Hr. fold (ToI32 res) in Hr.
  rewrite Hlong in *.
  apply (parseOutput_negative_length _ _ _ _ (pack_long (ToI32 res) ltac:(lia)));
    [|lia].
  cbn [with_memory with_state Memory fst]. unfold len in *.
  rewrite length_inserts. lia.
Qed.

Lemma call_wide_guest :
  call wide_guest "__allocate" [arg_int (len long_buffer)]
  = Returns (Ok {| value_bits := 0 |},
             bump_guest [("__allocate", bump_allocate)]
               (zeros (Z.to_nat (2 ^ 31 + 8))) (0 + len long_buffer)).
Proof.
  pose proof len_long_buffer. pose proof len_wide_memory.
  unfold call, invoke, wide_guest, bump_guest.
  cbn [Exports Memory guest].
  change (list_to_map [("__allocate", bump_allocate)] !! "__allocate")
    with (Some bump_allocate).
  cbv beta iota. rewrite bump_allocate_ok by lia. reflexivity.
Qed.

Lemma roundtrip_fails_at_long_buffer :
  allocator_in_bounds wide_guest long_buffer /\
  succeeded (storeParams wide_guest long_buffer) = true /\
  ~ roundtrip_at wide_guest long_buffer.
Proof.
  pose proof len_long_buffer as Hlong. pose proof len_wide_memory as Hmem.
  assert (Hfit : ToI32 {| value_bits := 0 |} + len long_buffer
                 <= len (Memory (bump_guest [("__allocate", bump_allocate)]
                                   (zeros (Z.to_nat (2 ^ 31 + 8)))
                                   (0 + len long_buffer)))).
  { change (ToI32 {| value_bits := 0 |}) with 0.
    unfold bump_guest. cbn [Memory]. lia. }
  split; [|split].
  - eexists _, _. split; [apply call_wide_guest|].
    unfold bump_guest. cbn [Memory value_bits]. rewrite Z.mod_small by lia. lia.
  - unfold storeParams.
    rewrite (allocateInner_ok _ _ _ _ call_wide_guest); [reflexivity| |exact Hfit].
    change (ToI32 {| value_bits := 0 |}) with 0. lia.
  - intros (d & instance' & Hstore & Hread).
    rewrite (long_store_unreadable _ _ _ _ _ _ call_wide_guest) in Hread;
      [discriminate| |exact Hfit|exact Hlong|exact Hstore].
    change (ToI32 {| value_bits := 0 |}) with 0. lia.
Qed.

(** C2, as stated, fails in both directions of the signed 32-bit range:
    at a buffer of [2^31] bytes the store returns a descriptor that
    [parseOutput] cannot read, and at the in-bounds offset [2^31] the store
    itself panics on the negative [int32]. *)
Lemma roundtrip_fails_beyond_int32 :
  (allocator_in_bounds wide_guest long_buffer /\
   succeeded (storeParams wide_guest long_buffer) = true /\
   ~ roundtrip_at wide_guest long_buffer) /\
  (allocator_in_bounds high_guest bytes_123 /\ ~ roundtrip_at high_guest bytes_123).
Proof.
  split; [exact roundtrip_fails_at_long_buffer|exact roundtrip_fails_at_high_offset].
Qed.

(** ** Stored ranges *)

Lemma len_cons {A : Type} (x : A) (l : list A) : len (x :: l) = 1 + len l.
Proof. unfold len. simpl length. lia. Qed.

Lemma stored_at_take_drop (M : list byte) (p : Z) (bs : list byte) :
  stored_at M p bs -> take (length bs) (drop (Z.to_nat p) M) = bs.
Proof.
  intros (Hp & Hfit & Hbs). unfold len in Hfit. apply list_eq. intros i.
  destruct (Nat.lt_ge_cases i (length bs)) as [Hi|Hi].
  - rewrite lookup_take_lt, lookup_drop by lia. apply Hbs, Hi.
  - rewrite lookup_take_ge by lia. symmetry. apply lookup_ge_None. lia.
Qed.

Lemma stored_at_inserts (M : list byte) (p : Z) (bs : list byte) :
  0 <= p -> p + len bs <= len M -> stored_at (list_inserts (Z.to_nat p) bs M) p bs.
Proof.
  intros Hp Hfit. unfold stored_at, len in *. rewrite length_inserts.
  repeat split; try lia.
  intros i Hi. rewrite list_lookup_inserts by lia. f_equal. lia.
Qed.

Lemma stored_at_frame (M M' : list byte) (p : Z) (bs : list byte) :
  stored_at M p bs -> len M <= len M' ->
  (forall a, p <= a < p + len bs -> M' !! Z.to_nat a = M !! Z.to_nat a) ->
  stored_at M' p bs.
Proof.
  intros (Hp & Hfit & Hbs) Hlen Hsame. unfold stored_at. repeat split; try lia.
  intros i Hi. rewrite <- Hbs by assumption.
  replace (Z.to_nat p + i)%nat with (Z.to_nat (p + Z.of_nat i)) by lia.
  apply Hsame. unfold len. lia.
Qed.

Lemma stored_at_app (M : list byte) (p : Z) (xs ys : list byte) :
  stored_at M p xs -> stored_at M (p + len xs) ys -> stored_at M p (xs ++ ys).
Proof.
  intros (Hp & Hfx & Hxs) (_ & Hfy & Hys). unfold stored_at, len in *.
  rewrite length_app. repeat split; try lia.
  intros i Hi. destruct (Nat.lt_ge_cases i (length xs)).
  - rewrite lookup_app_l by lia. apply Hxs. lia.
  - rewrite lookup_app_r by lia. rewrite <- Hys by lia. f_equal. lia.
Qed.

Lemma lookup_inserts_outside (M bs : list byte) (q : Z) (a : Z) :
  0 <= q -> 0 <= a -> ~ (q <= a < q + len bs) ->
  list_inserts (Z.to_nat q) bs M !! Z.to_nat a = M !! Z.to_nat a.
Proof.
  intros Hq Ha Hout. unfold len in Hout.
  destruct (Z.lt_ge_cases a q).
  - apply list_lookup_inserts_lt. lia.
  - apply list_lookup_inserts_ge. lia.
Qed.

(** ** One element of the array *)

Section Element.
Context {G : Type}.
Implicit Types (instance : Instance G) (each : list byte).

Lemma allocateInner_inv instance instance' each (loc : Z) :
  allocateInner instance each = Returns (Ok loc, instance') ->
  exists (alloc : guest_fn G) mem1 g1 res,
    Exports instance !! "__allocate" = Some alloc /\
    alloc [arg_int (len each)] (Memory instance) (guest instance)
      = ((mem1, g1), inl res) /\
    0 <= ToI32 res /\ ToI32 res + len each <= len mem1 /\
    loc = pack (len each) (ToI32 res) /\
    instance' = {| Exports := Exports instance;
                   Memory := list_inserts (Z.to_nat (ToI32 res)) each mem1;
                   guest := g1 |}.
Proof.
  unfold allocateInner, call, invoke.
  destruct (Exports instance !! "__allocate") as [alloc|]; [|discriminate].
  destruct (alloc _ _ _) as [[mem1 g1] [res|err]] eqn:Hcall; [|discriminate].
  cbn [with_state Memory fst snd]. unfold slice_from.
  destruct (Z.leb_spec 0 (ToI32 res)); [|discriminate].
  destruct (Z.leb_spec (ToI32 res) (len mem1)); [|discriminate].
  cbn [andb size base].
  destruct (Z.ltb_spec (len mem1 - ToI32 res) (len each)); [discriminate|].
  intros Heq. injection Heq as <- <-.
  exists alloc, mem1, g1, res. repeat split; try assumption; try lia.
  unfold copy, with_memory, with_state. cbn [Exports Memory guest fst snd base size].
  rewrite take_ge by (unfold len in *; lia). reflexivity.
Qed.

(** The effect of writing one buffer through a fresh allocator. *)
Lemma allocateInner_fresh (owned : G -> Z -> Prop) (alloc : guest_fn G)
    instance instance' each (loc : Z) :
  fresh_allocator owned alloc ->
  Exports instance !! "__allocate" = Some alloc ->
  allocateInner instance each = Returns (Ok loc, instance') ->
  exists p,
    loc = pack (len each) p /\ 0 <= p < 2 ^ 31 /\
    stored_at (Memory instance') p each /\
    (forall a, p <= a < p + len each -> ~ owned (guest instance) a) /\
    (forall a, p <= a < p + len each -> owned (guest instance') a) /\
    (forall a, owned (guest instance) a -> owned (guest instance') a) /\
    (forall a, owned (guest instance) a -> 0 <= a < len (Memory instance) ->
               Memory instance' !! Z.to_nat a = Memory instance !! Z.to_nat a) /\
    len (Memory instance) <= len (Memory instance') /\
    Exports instance' = Exports instance.
Proof.
  intros Hfresh Hexp Hrun.
  destruct (allocateInner_inv _ _ _ _ Hrun)
    as (alloc' & mem1 & g1 & res & Hexp' & Hcall & Hlow & Hfit & -> & ->).
  rewrite Hexp in Hexp'. injection Hexp' as <-.
  pose proof (len_nonneg each) as Hn.
  destruct (Hfresh _ _ _ _ _ _ Hcall Hn Hlow Hfit)
    as (Hnew & Hgot & Hkeep & Hsame & Hgrow).
  pose proof (int32_range (value_bits res)) as Hr. fold (ToI32 res) in Hr.
  exists (ToI32 res). cbn [Memory guest Exports].
  split; [reflexivity|]. split; [lia|].
  split; [apply stored_at_inserts; lia|].
  split; [exact Hnew|]. split; [exact Hgot|]. split; [exact Hkeep|].
  split; [|split; [|reflexivity]].
  - intros a Ha Hin. rewrite lookup_inserts_outside; [apply Hsame; assumption|lia|lia|].
    intros Hmid. exact (Hnew a Hmid Ha).
  - unfold len. rewrite length_inserts. exact Hgrow.
Qed.

End Element.

(** ** The descriptor table *)

Lemma len_entry_bytes (loc : Z) : len (entry_bytes loc) = 8.
Proof. unfold len, entry_bytes. rewrite length_le_split. reflexivity. Qed.

Section Table.
Context {G : Type}.
Variable owned : G -> Z -> Prop.
Variable alloc : guest_fn G.
Hypothesis Hfresh : fresh_allocator owned alloc.
Implicit Types (instance : Instance G) (data : list (list byte)).

Lemma table_slot (mem : view) (idx : Z) :
  0 <= idx -> idx + 1 < 2 ^ 60 -> 8 * idx + 8 <= size mem ->
  sub_slice mem (int (8 * idx)) (int (int (8 * idx) + 8))
  = Some {| base := base mem + 8 * idx; size := 8 |}.
Proof.
  intros Hidx Hsmall Hfit.
  rewrite (int_id (8 * idx)) by lia. rewrite int_id by lia.
  unfold sub_slice.
  destruct (Z.leb_spec 0 (8 * idx)); [|lia].
  destruct (Z.leb_spec (8 * idx) (8 * idx + 8)); [|lia].
  destruct (Z.leb_spec (8 * idx + 8) (size mem)); [|lia].
  cbn [andb]. do 2 f_equal. lia.
Qed.

Lemma allocate_loop_layout (mem : view) :
  0 <= base mem ->
  forall data instance (idx : Z) instance_f,
    Exports instance !! "__allocate" = Some alloc ->
    0 <= idx -> idx + len data < 2 ^ 60 ->
    8 * (idx + len data) <= size mem ->
    base mem + 8 * (idx + len data) <= len (Memory instance) ->
    (forall a, base mem + 8 * idx <= a < base mem + 8 * (idx + len data) ->
               owned (guest instance) a) ->
    allocate_loop instance mem idx data = Returns (Ok tt, instance_f) ->
    exists locs,
      Forall2 (fun loc each =>
                 exists p, loc = pack (len each) p /\ 0 <= p < 2 ^ 31 /\
                           stored_at (Memory instance_f) p each) locs data /\
      stored_at (Memory instance_f) (base mem + 8 * idx)
        (flat_map entry_bytes locs) /\
      (forall a, owned (guest instance) a -> 0 <= a < len (Memory instance) ->
                 ~ (base mem + 8 * idx <= a < base mem + 8 * (idx + len data)) ->
                 Memory instance_f !! Z.to_nat a = Memory instance !! Z.to_nat a) /\
      (forall a, owned (guest instance) a -> owned (guest instance_f) a) /\
      len (Memory instance) <= len (Memory instance_f) /\
      Exports instance_f = Exports instance.
Proof.
  intros Hbase. induction data as [|each rest IH];
    intros instance idx instance_f Hexp Hidx Hsmall Hsize Hfit Htable Hrun.
  - cbn [allocate_loop] in Hrun. injection Hrun as <-.
    exists []. split; [constructor|]. split.
    + unfold stored_at. cbn [flat_map length]. unfold len in *. simpl length in *.
      repeat split; try lia.
    + repeat split; try reflexivity; try lia; auto.
  - rewrite len_cons in *. pose proof (len_nonneg rest) as Hrest.
    cbn [allocate_loop] in Hrun.
    destruct (allocateInner instance each) as [[[loc|err] instance1]|] eqn:Hinner;
      try discriminate.
    destruct (allocateInner_fresh owned alloc _ _ _ _ Hfresh Hexp Hinner)
      as (p & Hloc & Hp & Hstored & Hnew & Hgot & Hkeep & Hsame & Hgrow & Hexp1).
    rewrite table_slot in Hrun by lia.
    unfold PutUint64 in Hrun. cbn [size base] in Hrun.
    change (7 <? 8) with true in Hrun. cbv iota in Hrun.
    set (instance2 := with_memory instance1 _) in Hrun.
    assert (Hlen2 : len (Memory instance2) = len (Memory instance1)).
    { unfold instance2, len. cbn [with_memory with_state Memory fst].
      rewrite length_inserts. reflexivity. }
    assert (Hslot : stored_at (Memory instance2) (base mem + 8 * idx)
                      (entry_bytes loc)).
    { unfold instance2. cbn [with_memory with_state Memory fst].
      fold (entry_bytes loc). apply stored_at_inserts; [lia|].
      rewrite len_entry_bytes. lia. }
    assert (Hout2 : forall a, 0 <= a ->
              ~ (base mem + 8 * idx <= a < base mem + 8 * idx + 8) ->
              Memory instance2 !! Z.to_nat a = Memory instance1 !! Z.to_nat a).
    { intros a Ha Hno. unfold instance2. cbn [with_memory with_state Memory fst].
      apply lookup_inserts_outside; [lia|lia|].
      fold (entry_bytes loc). rewrite len_entry_bytes. lia. }
    assert (Hdisjoint : forall a, p <= a < p + len each ->
              ~ (base mem + 8 * idx <= a < base mem + 8 * (idx + (1 + len rest)))).
    { intros a Ha Hin. exact (Hnew a Ha (Htable a Hin)). }
    destruct (IH instance2 (idx + 1) instance_f) as
      (locs & Hall & Htab & Hframe & Hmono & Hgrowf & Hexpf); try lia.
    + unfold instance2. cbn [with_memory with_state Exports]. congruence.
    + intros a Ha. unfold instance2. cbn [with_memory with_state guest snd].
      apply Hkeep, Htable. lia.
    + exact Hrun.
    + assert (Hg2 : guest instance2 = guest instance1) by reflexivity.
      exists (loc :: locs). split; [|split; [|split; [|split; [|split]]]].
      * constructor; [|exact Hall].
        exists p. split; [exact Hloc|]. split; [exact Hp|].
        apply stored_at_frame with (M := Memory instance2); [|lia|].
        -- apply stored_at_frame with (M := Memory instance1); [exact Hstored|lia|].
           intros a Ha. apply Hout2; [lia|]. specialize (Hdisjoint a Ha). lia.
        -- intros a Ha. apply Hframe.
           ++ rewrite Hg2. apply Hgot, Ha.
           ++ destruct Hstored as (_ & Hin & _). lia.
           ++ specialize (Hdisjoint a Ha). lia.
      * cbn [flat_map]. apply stored_at_app.
        -- apply stored_at_frame with (M := Memory instance2); [exact Hslot|lia|].
           rewrite len_entry_bytes.
           intros a Ha. apply Hframe.
           ++ rewrite Hg2. apply Hkeep, Htable. lia.
           ++ lia.
           ++ lia.
        -- rewrite len_entry_bytes.
           replace (base mem + 8 * idx + 8)
             with (base mem + 8 * (idx + 1)) by lia.
           exact Htab.
      * intros a Ha Hin Hno.
        rewrite Hframe; [|rewrite Hg2; apply Hkeep, Ha|lia|lia].
        rewrite Hout2 by lia. apply Hsame; assumption.
      * intros a Ha. apply Hmono. rewrite Hg2. apply Hkeep, Ha.
      * lia.
      * rewrite Hexpf. unfold instance2. cbn [with_memory with_state Exports].
        exact Hexp1.
Qed.

End Table.

(** ** The fields of a packed descriptor *)

Lemma descriptor_fields (hi lo : Z) :
  0 <= lo < 2 ^ 32 ->
  descriptor_length (hi * 2 ^ 32 + lo) = hi mod 2 ^ 32 /\
  descriptor_offset (hi * 2 ^ 32 + lo) = lo.
Proof.
  intros Hlo. unfold descriptor_length, descriptor_offset. split.
  - rewrite Z.div_add_l by lia. rewrite Z.div_small by lia.
    rewrite Z.add_0_r. reflexivity.
  - rewrite Z.add_comm, Z.mod_add by lia. apply Z.mod_small. lia.
Qed.

Lemma descriptor_fields_uint64 (d : Z) :
  descriptor_length (uint64 d) = descriptor_length d /\
  descriptor_offset (uint64 d) = descriptor_offset d.
Proof.
  unfold descriptor_length, descriptor_offset, uint64.
  rewrite (Z.mod_eq d (2 ^ 64)) by lia.
  replace (d - 2 ^ 64 * (d / 2 ^ 64))
    with (d + (- (d / 2 ^ 64) * 2 ^ 32) * 2 ^ 32) by lia.
  split.
  - rewrite Z.div_add by lia. rewrite Z.mod_add by lia. reflexivity.
  - rewrite Z.mod_add by lia. reflexivity.
Qed.

(** A descriptor packed from a 32-bit length and an offset below [2^31]
    carries exactly these two fields. *)
Lemma descriptor_fields_pack (sz ptr : Z) :
  0 <= sz < 2 ^ 32 -> 0 <= ptr < 2 ^ 31 ->
  descriptor_length (pack sz ptr) = sz /\ descriptor_offset (pack sz ptr) = ptr.
Proof.
  intros Hsz Hptr. rewrite pack_nonneg_offset by lia.
  destruct (descriptor_fields (if sz <? 2 ^ 31 then sz else sz - 2 ^ 32) ptr) as [-> ->];
    [lia|].
  split; [|reflexivity].
  destruct (Z.ltb_spec sz (2 ^ 31)).
  - apply Z.mod_small. lia.
  - symmetry. apply (Z.mod_unique _ _ (-1)); lia.
Qed.

(** ** Reading a table back *)

Lemma stored_at_app_inv (M : list byte) (p : Z) (xs ys : list byte) :
  stored_at M p (xs ++ ys) -> stored_at M p xs /\ stored_at M (p + len xs) ys.
Proof.
  intros (Hp & Hfit & Hall). unfold stored_at, len in *. rewrite length_app in *.
  split; repeat split; try lia.
  - intros i Hi. rewrite Hall by lia. apply lookup_app_l. lia.
  - intros i Hi.
    replace (Z.to_nat (p + Z.of_nat (length xs)) + i)%nat
      with (Z.to_nat p + (length xs + i))%nat by lia.
    rewrite Hall by lia. rewrite lookup_app_r by lia. f_equal. lia.
Qed.

Lemma stored_at_entry (M : list byte) (locs : list Z) :
  forall (p : Z) (i : nat) (loc : Z),
    stored_at M p (flat_map entry_bytes locs) -> locs !! i = Some loc ->
    stored_at M (p + 8 * Z.of_nat i) (entry_bytes loc).
Proof.
  induction locs as [|l ls IH]; intros p i loc Hst Hi; [discriminate|].
  cbn [flat_map] in Hst. apply stored_at_app_inv in Hst as [Hhead Htail].
  rewrite len_entry_bytes in Htail.
  destruct i as [|i].
  - injection Hi as <-. replace (p + 8 * Z.of_nat 0) with p by lia. exact Hhead.
  - replace (p + 8 * Z.of_nat (S i)) with (p + 8 + 8 * Z.of_nat i) by lia.
    apply IH; assumption.
Qed.

Section ArrayRoundTrip.
Context {G : Type}.
Implicit Types (instance : Instance G) (data : list (list byte)).

Lemma table_descriptor_stored instance (tableOffset : Z) (i : nat) (loc : Z) :
  stored_at (Memory instance) (tableOffset + 8 * Z.of_nat i) (entry_bytes loc) ->
  0 <= tableOffset ->
  table_descriptor instance tableOffset i = uint64 loc.
Proof.
  intros Hst Hoff. apply stored_at_take_drop in Hst.
  unfold table_descriptor.
  replace (Z.to_nat tableOffset + 8 * i)%nat
    with (Z.to_nat (tableOffset + 8 * Z.of_nat i)) by lia.
  unfold entry_bytes in Hst at 1. rewrite length_le_split in Hst.
  rewrite Hst. unfold entry_bytes. rewrite le_combine_split.
  change (Z.of_nat 8 * 8) with 64. unfold uint64. apply Z.mod_mod. lia.
Qed.

(** An element stored at an offset below [2^31] is what its descriptor
    dereferences to, for every length the 32-bit field can hold. *)
Lemma dereference_stored instance (each : list byte) (p : Z) :
  stored_at (Memory instance) p each -> p < 2 ^ 31 -> len each < 2 ^ 32 ->
  dereference instance (uint64 (pack (len each) p)) = Some each.
Proof.
  intros Hst Hp Hshort. pose proof (len_nonneg each) as Hn.
  pose proof Hst as (Hp0 & Hfit & _).
  unfold dereference.
  destruct (descriptor_fields_uint64 (pack (len each) p)) as [-> ->].
  destruct (descriptor_fields_pack (len each) p) as [-> ->]; [lia|lia|].
  destruct (Z.leb_spec (p + len each) (len (Memory instance))); [|lia].
  unfold len. rewrite Nat2Z.id. rewrite (stored_at_take_drop _ _ _ Hst). reflexivity.
Qed.

Lemma elements_dereference instance (locs : list Z) data :
  Forall2 (fun loc each =>
             exists p, loc = pack (len each) p /\ 0 <= p < 2 ^ 31 /\
                       stored_at (Memory instance) p each) locs data ->
  Forall (fun each => len each < 2 ^ 32) data ->
  Forall2 (fun loc each => dereference instance (uint64 loc) = Some each) locs data.
Proof.
  induction 1 as [|loc each locs data Hhead _ IH]; intros Hshort; [constructor|].
  apply Forall_cons in Hshort as [Heach Hshort].
  constructor; [|apply IH; assumption].
  destruct Hhead as (p & -> & Hp & Hst).
  apply dereference_stored; [exact Hst|lia|exact Heach].
Qed.

(** Elements shorter than [2^31] bytes are read back from their
    descriptors. *)
Lemma elements_read_back instance (locs : list Z) data :
  Forall2 (fun loc each =>
             exists p, loc = pack (len each) p /\ 0 <= p < 2 ^ 31 /\
                       stored_at (Memory instance) p each) locs data ->
  Forall (fun each => len each < 2 ^ 31) data ->
  Forall2 (fun loc each =>
             - 2 ^ 63 <= loc < 2 ^ 63 /\
             parseOutput instance loc = Returns (Ok each)) locs data.
Proof.
  induction 1 as [|loc each locs data Hhead _ IH]; intros Hshort;
    [constructor|].
  apply Forall_cons in Hshort as [Heach Hshort].
  constructor; [|apply IH; assumption].
  destruct Hhead as (p & -> & Hp & Hst).
  pose proof (len_nonneg each) as Hn.
  rewrite pack_nonneg_offset by lia.
  destruct (Z.ltb_spec (len each) (2 ^ 31)); [|lia].
  split; [lia|].
  erewrite parseOutput_in_range;
    [|apply unpack_high_low; lia|lia|lia|destruct Hst as (_ & Hfit & _); exact Hfit].
  unfold len. rewrite Nat2Z.id. rewrite (stored_at_take_drop _ _ _ Hst).
  reflexivity.
Qed.

Lemma allocate_inv instance instance' data (d : Z) :
  len data < 2 ^ 60 ->
  allocate instance data = Returns (Ok d, instance') ->
  exists res instance0,
    call instance "__allocate" [arg_int (8 * len data)] = Returns (Ok res, instance0) /\
    0 <= ToI32 res /\ ToI32 res + 8 * len data <= len (Memory instance0) /\
    allocate_loop instance0
      {| base := ToI32 res; size := len (Memory instance0) - ToI32 res |} 0 data
      = Returns (Ok tt, instance') /\
    d = pack (len data) (ToI32 res).
Proof.
  intros Hk. pose proof (len_nonneg data) as Hk0.
  unfold allocate. rewrite (int_id (8 * len data)) by lia.
  destruct (call instance "__allocate" [arg_int (8 * len data)])
    as [[[res|err] instance0]|] eqn:Hcall; try discriminate.
  unfold slice_from.
  destruct (Z.leb_spec 0 (ToI32 res)); [|discriminate].
  destruct (Z.leb_spec (ToI32 res) (len (Memory instance0))); [|discriminate].
  cbn [andb size].
  destruct (Z.ltb_spec (len (Memory instance0) - ToI32 res) (8 * len data));
    [discriminate|].
  destruct (allocate_loop _ _ _ _) as [[[[]|err] instance1]|] eqn:Hloop;
    try discriminate.
  intros Heq. injection Heq as <- <-.
  exists res, instance0. repeat split; try assumption; lia.
Qed.

Lemma call_inv instance instance0 (name : string) (args : list arg)
    (alloc : guest_fn G) (res : Value) :
  Exports instance !! name = Some alloc ->
  call instance name args = Returns (Ok res, instance0) ->
  alloc args (Memory instance) (guest instance)
    = ((Memory instance0, guest instance0), inl res) /\
  Exports instance0 = Exports instance.
Proof.
  intros Hexp. unfold call, invoke. rewrite Hexp.
  destruct (alloc _ _ _) as [[m g] [res'|msg]]; [|discriminate].
  intros Heq. injection Heq as <- <-. split; reflexivity.
Qed.

Variable owned : G -> Z -> Prop.
Variable alloc : guest_fn G.
Hypothesis Hfresh : fresh_allocator owned alloc.

(** Where [allocate] leaves the table and the elements. *)
Lemma allocate_layout instance instance' data (d : Z) :
  Exports instance !! "__allocate" = Some alloc ->
  len data < 2 ^ 60 ->
  allocate instance data = Returns (Ok d, instance') ->
  exists res instance0 locs,
    call instance "__allocate" [arg_int (8 * len data)] = Returns (Ok res, instance0) /\
    d = pack (len data) (ToI32 res) /\ 0 <= ToI32 res < 2 ^ 31 /\
    Forall2 (fun loc each =>
               exists p, loc = pack (len each) p /\ 0 <= p < 2 ^ 31 /\
                         stored_at (Memory instance') p each) locs data /\
    stored_at (Memory instance') (ToI32 res) (flat_map entry_bytes locs).
Proof.
  intros Hexp Hk Hrun. pose proof (len_nonneg data) as Hk0.
  destruct (allocate_inv _ _ _ _ Hk Hrun)
    as (res & instance0 & Hcall & Hlow & Hfit & Hloop & ->).
  destruct (call_inv _ _ _ _ _ _ Hexp Hcall) as [Halloc Hexp0].
  assert (Hn : 0 <= 8 * len data) by lia.
  destruct (Hfresh _ _ _ _ _ _ Halloc Hn Hlow Hfit) as (_ & Hgot & _ & _ & _).
  pose proof (int32_range (value_bits res)) as Hr. fold (ToI32 res) in Hr.
  destruct (allocate_loop_layout owned alloc Hfresh
              {| base := ToI32 res; size := len (Memory instance0) - ToI32 res |}
              Hlow data instance0 0 instance')
    as (locs & Hall & Htab & _); cbn [base size]; try lia.
  - congruence.
  - intros a Ha. apply Hgot. lia.
  - exact Hloop.
  - exists res, instance0, locs. cbn [base] in Htab.
    replace (ToI32 res + 8 * 0) with (ToI32 res) in Htab by lia.
    split; [exact Hcall|]. split; [reflexivity|]. split; [lia|].
    split; [exact Hall|exact Htab].
Qed.

(** What the package's own reader makes of the elements: those shorter than
    [2^31] bytes are read back by [parseOutput]. *)
Lemma allocate_elements_parseOutput instance instance' data (d : Z) :
  Exports instance !! "__allocate" = Some alloc ->
  len data < 2 ^ 60 ->
  Forall (fun each => len each < 2 ^ 31) data ->
  allocate instance data = Returns (Ok d, instance') ->
  exists locs,
    Forall2 (fun loc each => parseOutput instance' loc = Returns (Ok each)) locs data.
Proof.
  intros Hexp Hk Hshort Hrun.
  destruct (allocate_layout _ _ _ _ Hexp Hk Hrun)
    as (res & instance0 & locs & _ & _ & _ & Hall & _).
  exists locs. eapply Forall2_impl; [exact (elements_read_back _ _ _ Hall Hshort)|].
  intros loc each [_ Hparse]. exact Hparse.
Qed.

(** Reading a table whose entries are stored one after the other and
    dereference to the buffers. *)
Lemma read_table_of_layout instance (locs : list Z) data (d ptr : Z) :
  descriptor_length d = len data -> descriptor_offset d = ptr -> 0 <= ptr ->
  stored_at (Memory instance) ptr (flat_map entry_bytes locs) ->
  Forall2 (fun loc each => dereference instance (uint64 loc) = Some each) locs data ->
  read_table instance d = Some data.
Proof.
  intros Hlength Hoffset Hptr Htab Hderef.
  unfold read_table. rewrite Hlength, Hoffset.
  assert (Hmap : map (table_descriptor instance ptr)
                   (seq 0 (Z.to_nat (len data))) = map uint64 locs).
  { apply list_eq. intros i. unfold len. rewrite Nat2Z.id.
    rewrite <- (Forall2_length _ _ _ Hderef).
    change (map ?f ?l) with (f <$> l). rewrite !list_lookup_fmap.
    destruct (locs !! i) as [loc|] eqn:Hi.
    - rewrite lookup_seq_lt by (apply lookup_lt_Some in Hi; lia).
      cbn [fmap option_fmap option_map]. f_equal. simpl.
      apply table_descriptor_stored; [|exact Hptr].
      apply stored_at_entry with (locs := locs); assumption.
    - rewrite lookup_seq_ge by (apply lookup_ge_None in Hi; lia). reflexivity. }
  rewrite Hmap. apply mapM_Some. change (map ?f ?l) with (f <$> l).
  apply Forall2_fmap_l. exact Hderef.
Qed.

(** C4, as amended.  With a guest allocator that hands out fresh ranges,
    and lengths and a count that fit the 32-bit field of a descriptor: when
    [allocate]
    returns a descriptor it has asked the allocator for [8*k] bytes, the
    descriptor is [pack(k, tableOffset)] with these two fields, the table
    holds for buffer [i] eight little-endian bytes at [tableOffset + 8*i]
    whose descriptor dereferences to that buffer, and reading the table at
    the claimed offset yields the buffers in their order. *)
Theorem allocate_table_roundtrip instance instance' data (d : Z) :
  Exports instance !! "__allocate" = Some alloc ->
  len data < 2 ^ 32 ->
  Forall (fun each => len each < 2 ^ 32) data ->
  allocate instance data = Returns (Ok d, instance') ->
  exists res instance0,
    call instance "__allocate" [arg_int (8 * len data)] = Returns (Ok res, instance0) /\
    d = pack (len data) (ToI32 res) /\
    descriptor_length d = len data /\ descriptor_offset d = ToI32 res /\
    (forall (i : nat) each, data !! i = Some each ->
       exists entry,
         stored_at (Memory instance') (ToI32 res + 8 * Z.of_nat i) (le_split 8 entry) /\
         table_descriptor instance' (ToI32 res) i = entry /\
         dereference instance' entry = Some each) /\
    read_table instance' d = Some data.
Proof.
  intros Hexp Hk Hshort Hrun. pose proof (len_nonneg data) as Hk0.
  assert (Hk' : len data < 2 ^ 60) by lia.
  destruct (allocate_layout _ _ _ _ Hexp Hk' Hrun)
    as (res & instance0 & locs & Hcall & -> & Hoff & Hall & Htab).
  destruct (descriptor_fields_pack (len data) (ToI32 res)) as [Hlength Hoffset];
    [lia|lia|].
  pose proof (elements_dereference _ _ _ Hall Hshort) as Hderef.
  assert (Hentry : forall (i : nat) loc, locs !! i = Some loc ->
            table_descriptor instance' (ToI32 res) i = uint64 loc).
  { intros i loc Hi. apply table_descriptor_stored; [|lia].
    apply stored_at_entry with (locs := locs); assumption. }
  exists res, instance0. split; [exact Hcall|]. split; [reflexivity|].
  split; [exact Hlength|]. split; [exact Hoffset|]. split.
  - intros i each Hi.
    destruct (Forall2_lookup_r _ _ _ _ _ Hderef Hi) as (loc & Hloc & Hd).
    exists (uint64 loc). split; [|split; [|exact Hd]].
    + apply (stored_at_entry _ locs); assumption.
    + apply Hentry; assumption.
  - apply (read_table_of_layout _ locs _ _ (ToI32 res)); try assumption. lia.
Qed.

End ArrayRoundTrip.

(** ** The bump allocator is a fresh allocator *)

Lemma bump_allocate_fresh : fresh_allocator bump_owned bump_allocate.
Proof.
  intros n mem mem' brk brk' res Hcall Hn Hlow Hfit.
  apply bump_allocate_inv in Hcall
    as (_ & Hbrk & Hmem & Hmax & -> & -> & ->).
  unfold ToI32 in *. cbn [value_bits] in *. unfold bump_owned.
  destruct (Z.ltb_spec brk (2 ^ 31)) as [Hsmall|Hlarge].
  - rewrite int32_id in * by lia. repeat split; try lia; auto.
  - destruct (Z.eq_dec brk (2 ^ 32)) as [->|Hne].
    + change (int32 (2 ^ 32)) with 0 in *. repeat split; try lia; auto.
    + rewrite int32_high in Hlow by lia. lia.
Qed.

Lemma call_bump (exports : list (string * guest_fn Z)) (mem : list byte)
    (brk n : Z) :
  (list_to_map exports : gmap string (guest_fn Z)) !! "__allocate"
    = Some bump_allocate ->
  0 <= n -> 0 <= brk -> brk + n <= len mem -> brk + n <= 2 ^ 32 ->
  call (bump_guest exports mem brk) "__allocate" [arg_int n]
  = Returns (Ok {| value_bits := brk |}, bump_guest exports mem (brk + n)).
Proof.
  intros Hexp Hn Hbrk Hmem Hmax. unfold call, invoke, bump_guest.
  cbn [Exports Memory guest]. rewrite Hexp.
  rewrite bump_allocate_ok by assumption. reflexivity.
Qed.

Lemma allocate_table_roundtrip_witness :
  exists d instance',
    allocate echo_guest three_buffers = Returns (Ok d, instance') /\
    read_table instance' d = Some three_buffers.
Proof.
  assert (Hok : succeeded (allocate echo_guest three_buffers) = true)
    by (vm_compute; reflexivity).
  destruct (allocate echo_guest three_buffers) as [[[d|err] instance']|p] eqn:Hrun.
  - exists d, instance'. split; [reflexivity|].
    destruct (allocate_table_roundtrip bump_owned bump_allocate bump_allocate_fresh
                echo_guest instance' three_buffers d)
      as (res & instance0 & _ & _ & _ & _ & _ & Hread).
    + reflexivity.
    + reflexivity.
    + repeat constructor.
    + exact Hrun.
    + exact Hread.
  - discriminate Hok.
  - discriminate Hok.
Defined.

Lemma allocate_table_offset_negative {G : Type} (instance instance0 : Instance G)
    (data : list (list byte)) (res : Value) :
  call instance "__allocate" [arg_int (int (8 * len data))]
    = Returns (Ok res, instance0) ->
  ToI32 res < 0 ->
  allocate instance data = Panics slice_bounds_out_of_range.
Proof.
  intros Hcall Hneg. unfold allocate. rewrite Hcall.
  rewrite slice_from_None by lia. reflexivity.
Qed.

(** C4, as stated, fails in two ways.  Against an allocator that answers
    every request with the offset 0 the array write returns a descriptor,
    but the entry has overwritten the buffer and the table reads back as
    three zero bytes.  Against a fresh allocator that answers the request
    for the table with the in-bounds offset [2^31], the array write panics
    on the negative [int32] and returns no descriptor at all. *)
Lemma table_roundtrip_needs_fresh_low_offsets :
  (exists (d : Z) (instance' : Instance Z),
     allocate overlapping_guest [bytes_123] = Returns (Ok d, instance') /\
     d = pack 1 0 /\
     read_table instance' d = Some [[Byte.x00; Byte.x00; Byte.x00]] /\
     read_table instance' d <> Some [bytes_123]) /\
  (fresh_allocator bump_owned bump_allocate /\
   (exists (res : Value) (instance0 : Instance Z),
      call high_guest "__allocate" [arg_int 8] = Returns (Ok res, instance0) /\
      value_bits res mod 2 ^ 32 + 8 <= len (Memory instance0)) /\
   allocate high_guest [[]] = Panics slice_bounds_out_of_range).
Proof.
  assert (Hcall : call high_guest "__allocate" [arg_int 8]
                  = Returns (Ok {| value_bits := 2 ^ 31 |},
                             bump_guest [("__allocate", bump_allocate)]
                               (zeros (Z.to_nat (2 ^ 31 + 8))) (2 ^ 31 + 8))).
  { unfold high_guest. apply call_bump; [reflexivity|lia|lia| |lia].
    rewrite len_wide_memory. lia. }
  split; [|split; [exact bump_allocate_fresh|split]].
  - pose (instance' :=
            {| Exports := Exports overlapping_guest;
               Memory := list_inserts 0 (entry_bytes (pack 3 0))
                           (list_inserts 0 bytes_123 (zeros 32));
               guest := 0 |}).
    assert (Hread : read_table instance' (pack 1 0)
                    = Some [[Byte.x00; Byte.x00; Byte.x00]])
      by (vm_compute; reflexivity).
    exists (pack 1 0), instance'.
    split; [reflexivity|]. split; [reflexivity|]. split; [exact Hread|].
    rewrite Hread. discriminate.
  - exists {| value_bits := 2 ^ 31 |},
      (bump_guest [("__allocate", bump_allocate)]
         (zeros (Z.to_nat (2 ^ 31 + 8))) (2 ^ 31 + 8)).
    split; [exact Hcall|].
    unfold bump_guest. cbn [Memory value_bits]. rewrite len_wide_memory.
    rewrite Z.mod_small by lia. lia.
  - apply (allocate_table_offset_negative high_guest
             (bump_guest [("__allocate", bump_allocate)]
                (zeros (Z.to_nat (2 ^ 31 + 8))) (2 ^ 31 + 8))
             [[]] {| value_bits := 2 ^ 31 |}).
    + exact Hcall.
    + apply ToI32_negative. cbn [value_bits]. rewrite Z.mod_small by lia. lia.
Qed.

(** ** [allocate] returns on a bump allocator with room

    The round trip above is stated for the runs in which [allocate] returns
    a descriptor.  On a guest with a bump allocator it does return one
    whenever the table and the buffers fit the memory below [2^31]. *)

Lemma total_len_nonneg (data : list (list byte)) : 0 <= total_len data.
Proof.
  induction data as [|each rest IH]; cbn [total_len fold_right]; [lia|].
  fold (total_len rest). pose proof (len_nonneg each). lia.
Qed.

Lemma allocateInner_bump (exports : list (string * guest_fn Z))
    (mem each : list byte) (brk : Z) :
  (list_to_map exports : gmap string (guest_fn Z)) !! "__allocate"
    = Some bump_allocate ->
  0 <= brk -> brk + len each <= len mem -> brk < 2 ^ 31 ->
  brk + len each <= 2 ^ 32 ->
  allocateInner (bump_guest exports mem brk) each
  = Returns (Ok (pack (len each) brk),
             bump_guest exports (list_inserts (Z.to_nat brk) each mem)
               (brk + len each)).
Proof.
  intros Hexp Hbrk Hfit Hsmall Hmax. pose proof (len_nonneg each) as Hn.
  assert (Hptr : ToI32 {| value_bits := brk |} = brk)
    by (unfold ToI32; cbn [value_bits]; apply int32_id; lia).
  erewrite allocateInner_ok; [|apply call_bump; (assumption || lia)| |].
  - rewrite Hptr. reflexivity.
  - rewrite Hptr. exact Hbrk.
  - rewrite Hptr. unfold bump_guest. cbn [Memory]. exact Hfit.
Qed.

Lemma allocate_loop_bump_returns (exports : list (string * guest_fn Z))
    (mem0 : view) :
  (list_to_map exports : gmap string (guest_fn Z)) !! "__allocate"
    = Some bump_allocate ->
  forall (data : list (list byte)) (mem : list byte) (brk idx : Z),
    0 <= brk -> 0 <= idx -> idx + len data < 2 ^ 60 ->
    8 * (idx + len data) <= size mem0 ->
    brk + total_len data <= len mem -> brk + total_len data < 2 ^ 31 ->
    succeeded (allocate_loop (bump_guest exports mem brk) mem0 idx data) = true.
Proof.
  intros Hexp. induction data as [|each rest IH];
    intros mem brk idx Hbrk Hidx Hsmall Hsize Hfit Hroom; [reflexivity|].
  cbn [total_len fold_right] in Hfit, Hroom. fold (total_len rest) in Hfit, Hroom.
  rewrite len_cons in *.
  pose proof (len_nonneg each). pose proof (len_nonneg rest).
  pose proof (total_len_nonneg rest).
  cbn [allocate_loop]. rewrite allocateInner_bump by (assumption || lia).
  rewrite table_slot by lia. unfold PutUint64. cbn [size base].
  change (7 <? 8) with true. cbv iota.
  set (mem' := list_inserts _ (le_split 8 _) _).
  change (with_memory (bump_guest exports ?m ?b) mem')
    with (bump_guest exports mem' b).
  apply IH; try lia.
  unfold mem', bump_guest. cbn [Memory]. unfold len in *.
  rewrite !length_inserts. lia.
Qed.

Lemma allocate_bump_returns (exports : list (string * guest_fn Z))
    (mem : list byte) (brk : Z) (data : list (list byte)) :
  (list_to_map exports : gmap string (guest_fn Z)) !! "__allocate"
    = Some bump_allocate ->
  0 <= brk -> len data < 2 ^ 60 ->
  brk + 8 * len data + total_len data <= len mem ->
  brk + 8 * len data + total_len data < 2 ^ 31 ->
  succeeded (allocate (bump_guest exports mem brk) data) = true.
Proof.
  intros Hexp Hbrk Hk Hfit Hroom.
  pose proof (len_nonneg data). pose proof (total_len_nonneg data).
  assert (Hptr : ToI32 {| value_bits := brk |} = brk)
    by (unfold ToI32; cbn [value_bits]; apply int32_id; lia).
  unfold allocate. rewrite (int_id (8 * len data)) by lia.
  rewrite call_bump by (assumption || lia). rewrite Hptr.
  unfold bump_guest at 1. cbn [Memory].
  rewrite slice_from_Some by lia. cbn [size].
  destruct (Z.ltb_spec (len mem - brk) (8 * len data)); [lia|].
  pose proof (allocate_loop_bump_returns exports
                {| base := brk; size := len mem - brk |} Hexp data mem
                (brk + 8 * len data) 0) as Hloop.
  destruct (allocate_loop _ _ _ _) as [[[u|err] instance1]|p];
    [reflexivity| |]; apply Hloop; cbn [size]; lia.
Qed.

Lemma len_le_total_len (data : list (list byte)) :
  Forall (fun each => len each <= total_len data) data.
Proof.
  induction data as [|each rest IH]; [constructor|].
  cbn [total_len fold_right]. fold (total_len rest).
  pose proof (len_nonneg each). pose proof (total_len_nonneg rest).
  constructor; [lia|].
  eapply Forall_impl; [exact IH|]. cbn beta. intros x Hx. lia.
Qed.

(** X15.  On such a guest the array round trip holds outright: [allocate]
    returns a descriptor, and the table read at it yields the buffers. *)
Lemma allocate_bump_roundtrip (exports : list (string * guest_fn Z))
    (mem : list byte) (brk : Z) (data : list (list byte)) :
  (list_to_map exports : gmap string (guest_fn Z)) !! "__allocate"
    = Some bump_allocate ->
  0 <= brk ->
  brk + 8 * len data + total_len data <= len mem ->
  brk + 8 * len data + total_len data < 2 ^ 31 ->
  exists d instance',
    allocate (bump_guest exports mem brk) data = Returns (Ok d, instance') /\
    read_table instance' d = Some data.
Proof.
  intros Hexp Hbrk Hfit Hroom.
  pose proof (len_nonneg data). pose proof (total_len_nonneg data).
  assert (Hk : len data < 2 ^ 60) by lia.
  pose proof (allocate_bump_returns exports mem brk data Hexp Hbrk Hk Hfit Hroom)
    as Hok.
  destruct (allocate (bump_guest exports mem brk) data)
    as [[[d|err] instance']|p] eqn:Hrun; try discriminate Hok.
  exists d, instance'. split; [reflexivity|].
  destruct (allocate_layout bump_owned bump_allocate bump_allocate_fresh
              (bump_guest exports mem brk) instance' data d Hexp Hk Hrun)
    as (res & instance0 & locs & _ & -> & Hoff & Hall & Htab).
  destruct (descriptor_fields_pack (len data) (ToI32 res)) as [Hlength Hoffset];
    [lia|lia|].
  apply (read_table_of_layout _ locs _ _ (ToI32 res)); try assumption; [lia|].
  apply elements_dereference; [exact Hall|].
  eapply Forall_impl; [exact (len_le_total_len data)|]. cbn beta. intros x Hx. lia.
Qed.

(** ** The outer descriptor *)

(** C5, as amended.  The length field of the outer descriptor is the number
    of buffers, not the byte size of the table; the [8 * element_count]
    bytes are what [allocate] asks the allocator for, at the offset the
    descriptor carries. *)
Theorem allocate_outer_length {G : Type} (instance instance' : Instance G)
    (data : list (list byte)) (d : Z) :
  len data < 2 ^ 32 ->
  allocate instance data = Returns (Ok d, instance') ->
  descriptor_length d = len data /\
  exists res instance0,
    call instance "__allocate" [arg_int (8 * len data)] = Returns (Ok res, instance0) /\
    descriptor_offset d = ToI32 res.
Proof.
  intros Hk Hrun. pose proof (len_nonneg data) as Hk0.
  assert (Hk' : len data < 2 ^ 60) by lia.
  destruct (allocate_inv _ _ _ _ Hk' Hrun)
    as (res & instance0 & Hcall & Hlow & _ & _ & ->).
  pose proof (int32_range (value_bits res)) as Hr. fold (ToI32 res) in Hr.
  rewrite pack_nonneg_offset by lia.
  set (hi := if len data <? 2 ^ 31 then len data else len data - 2 ^ 32).
  assert (Hhi : hi mod 2 ^ 32 = len data).
  { unfold hi. destruct (Z.ltb_spec (len data) (2 ^ 31)).
    - apply Z.mod_small. lia.
    - symmetry. apply (Z.mod_unique _ _ (-1)); lia. }
  split.
  - unfold descriptor_length.
    rewrite Z.add_comm, Z.div_add by lia. rewrite Z.div_small by lia. exact Hhi.
  - exists res, instance0. split; [exact Hcall|].
    unfold descriptor_offset. rewrite Z.add_comm, Z.mod_add by lia.
    apply Z.mod_small. lia.
Qed.

Lemma allocate_outer_length_witness :
  exists d instance',
    allocate echo_guest three_buffers = Returns (Ok d, instance') /\
    descriptor_length d = len three_buffers.
Proof.
  assert (Hok : succeeded (allocate echo_guest three_buffers) = true)
    by (vm_compute; reflexivity).
  destruct (allocate echo_guest three_buffers) as [[[d|err] instance']|p] eqn:Hrun.
  - exists d, instance'. split; [reflexivity|].
    apply (allocate_outer_length echo_guest instance' three_buffers d); [reflexivity|].
    exact Hrun.
  - discriminate Hok.
  - discriminate Hok.
Defined.

(** C5, as stated, fails for one buffer: the length field is 1, not 8. *)
Lemma outer_length_is_not_table_size :
  exists d instance',
    allocate echo_guest [bytes_123] = Returns (Ok d, instance') /\
    descriptor_length d = 1 /\ descriptor_length d <> 8 * len [bytes_123].
Proof.
  assert (Hd : returned_descriptor (allocate echo_guest [bytes_123]) = Some (pack 1 0))
    by (vm_compute; reflexivity).
  destruct (allocate echo_guest [bytes_123]) as [[[d|err] instance']|p] eqn:Hrun;
    try discriminate Hd.
  injection Hd as ->. exists (pack 1 0), instance'.
  split; [reflexivity|]. split; [reflexivity|]. vm_compute. discriminate.
Qed.

(** ** Failure of an element *)

Section Atomic.
Context {G : Type}.
Implicit Types (instance : Instance G) (data pre post : list (list byte)).

Lemma allocate_loop_app (mem : view) pre :
  forall post instance (idx : Z),
    allocate_loop instance mem idx (pre ++ post)
    = match allocate_loop instance mem idx pre with
      | Returns (Ok _, instance1) => allocate_loop instance1 mem (idx + len pre) post
      | other => other
      end.
Proof.
  induction pre as [|each pre IH]; intros post instance idx.
  - cbn [app allocate_loop]. replace (idx + len []) with idx by (unfold len; simpl; lia).
    reflexivity.
  - cbn [app allocate_loop].
    destruct (allocateInner instance each) as [[[loc|err] instance1]|p]; try reflexivity.
    destruct (sub_slice _ _ _) as [b|]; [|reflexivity].
    destruct (PutUint64 instance1 b (uint64 loc)) as [instance2|p]; [|reflexivity].
    rewrite IH. rewrite len_cons.
    replace (idx + 1 + len pre) with (idx + (1 + len pre)) by lia. reflexivity.
Qed.

(** The two ways in which writing one buffer returns an error: the allocator
    call failed, or its result did not pass the bounds validation. *)
Lemma allocateInner_Err instance instance' (each : list byte) (err : error) :
  allocateInner instance each = Returns (Err err, instance') <->
  call instance "__allocate" [arg_int (len each)] = Returns (Err err, instance') \/
  exists res mem,
    call instance "__allocate" [arg_int (len each)] = Returns (Ok res, instance') /\
    slice_from (Memory instance') (ToI32 res) = Some mem /\
    size mem < len each /\
    err = errors_New "allocateInner: invalid memory size".
Proof.
  unfold allocateInner.
  destruct (call instance "__allocate" [arg_int (len each)])
    as [[[res|err0] instance0]|p].
  - destruct (slice_from (Memory instance0) (ToI32 res)) as [mem|] eqn:Hslice.
    + destruct (Z.ltb_spec (size mem) (len each)); split.
      * intros Heq. injection Heq as <- <-. right. exists res, mem. auto.
      * intros [Heq|(res' & mem' & Heq & _ & _ & ->)]; [discriminate|].
        injection Heq as _ <-. reflexivity.
      * discriminate.
      * intros [Heq|(res' & mem' & Heq & Hs & Hlt & _)]; [discriminate|].
        injection Heq as <- <-. rewrite Hslice in Hs. injection Hs as <-. lia.
    + split; [discriminate|].
      intros [Heq|(res' & mem' & Heq & Hs & _)]; [discriminate|].
      injection Heq as <- <-. rewrite Hslice in Hs. discriminate.
  - split.
    + intros Heq. injection Heq as <- <-. left. reflexivity.
    + intros [Heq|(res' & mem' & Heq & _)]; [|discriminate].
      injection Heq as <- <-. reflexivity.
  - split; [discriminate|].
    intros [Heq|(res' & mem' & Heq & _)]; discriminate.
Qed.

(** The part of C6 that holds.  Once the table has been allocated and
    validated, if the buffers [pre] have been written and writing the next
    buffer returns an error, then [allocate] returns that error and no
    descriptor. *)
Theorem allocate_fails_atomically instance instance0 instance1 instance2
    data pre (each : list byte) post (res : Value) (mem : view) (err : error) :
  data = pre ++ each :: post ->
  call instance "__allocate" [arg_int (int (8 * len data))]
    = Returns (Ok res, instance0) ->
  slice_from (Memory instance0) (ToI32 res) = Some mem ->
  int (8 * len data) <= size mem ->
  allocate_loop instance0 mem 0 pre = Returns (Ok tt, instance1) ->
  allocateInner instance1 each = Returns (Err err, instance2) ->
  allocate instance data = Returns (Err err, instance2) /\
  returned_descriptor (allocate instance data) = None.
Proof.
  intros -> Hcall Hslice Hsize Hpre Hfail.
  assert (Hrun : allocate instance (pre ++ each :: post) = Returns (Err err, instance2)).
  { unfold allocate. rewrite Hcall, Hslice.
    destruct (Z.ltb_spec (size mem) (int (8 * len (pre ++ each :: post)))); [lia|].
    rewrite allocate_loop_app, Hpre. cbn [allocate_loop]. rewrite Hfail.
    reflexivity. }
  split; [exact Hrun|]. rewrite Hrun. reflexivity.
Qed.

(** When writing the next buffer panics instead, so does [allocate]: no
    descriptor is returned either. *)
Lemma allocate_element_panics instance instance0 instance1
    data pre (each : list byte) post (res : Value) (mem : view) (p : panic) :
  data = pre ++ each :: post ->
  call instance "__allocate" [arg_int (int (8 * len data))]
    = Returns (Ok res, instance0) ->
  slice_from (Memory instance0) (ToI32 res) = Some mem ->
  int (8 * len data) <= size mem ->
  allocate_loop instance0 mem 0 pre = Returns (Ok tt, instance1) ->
  allocateInner instance1 each = Panics p ->
  allocate instance data = Panics p.
Proof.
  intros -> Hcall Hslice Hsize Hpre Hfail.
  unfold allocate. rewrite Hcall, Hslice.
  destruct (Z.ltb_spec (size mem) (int (8 * len (pre ++ each :: post)))); [lia|].
  rewrite allocate_loop_app, Hpre. cbn [allocate_loop]. rewrite Hfail.
  reflexivity.
Qed.

(** C6.  The bounds validation of an element does not always end in an
    error.  Once the table has been allocated and validated and the buffers
    [pre] have been written, if the allocator answers the request for the
    next buffer with an offset past the end of the memory, or with one that
    is negative as an [int32], then the slice expression of [allocateInner]
    panics before the size check is reached: [allocate] panics and returns
    no error. *)
Theorem allocate_element_offset_past_end instance instance0 instance1 instance2
    data pre (each : list byte) post (res res1 : Value) (mem : view) :
  data = pre ++ each :: post ->
  call instance "__allocate" [arg_int (int (8 * len data))]
    = Returns (Ok res, instance0) ->
  slice_from (Memory instance0) (ToI32 res) = Some mem ->
  int (8 * len data) <= size mem ->
  allocate_loop instance0 mem 0 pre = Returns (Ok tt, instance1) ->
  call instance1 "__allocate" [arg_int (len each)] = Returns (Ok res1, instance2) ->
  ToI32 res1 < 0 \/ len (Memory instance2) < ToI32 res1 ->
  allocate instance data = Panics slice_bounds_out_of_range /\
  returned_error (allocate instance data) = None.
Proof.
  intros Hdata Hcall Hslice Hsize Hpre Hcall1 Hout.
  assert (Hinner : allocateInner instance1 each = Panics slice_bounds_out_of_range).
  { unfold allocateInner. rewrite Hcall1.
    rewrite slice_from_None by exact Hout. reflexivity. }
  assert (Hrun : allocate instance data = Panics slice_bounds_out_of_range).
  { exact (allocate_element_panics _ _ _ _ _ _ _ _ _ _
             Hdata Hcall Hslice Hsize Hpre Hinner). }
  split; [exact Hrun|]. rewrite Hrun. reflexivity.
Qed.

End Atomic.

Lemma allocate_fails_atomically_witness :
  returned_error (allocate echo_guest too_much) = Some (engine_error "out of memory") /\
  returned_descriptor (allocate echo_guest too_much) = None.
Proof.
  pose (instance1 :=
          {| Exports := Exports echo_guest;
             Memory := list_inserts 0 (entry_bytes (pack 3 16))
                         (list_inserts 16 bytes_123 (zeros 32));
             guest := 19 |}).
  destruct (allocate_fails_atomically echo_guest (with_state echo_guest (zeros 32, 16))
              instance1 instance1 too_much [bytes_123] (zeros 40) []
              {| value_bits := 0 |} {| base := 0; size := 32 |}
              (engine_error "out of memory"))
    as [Hrun Hnone].
  - reflexivity.
  - reflexivity.
  - reflexivity.
  - vm_compute. discriminate.
  - reflexivity.
  - reflexivity.
  - split; [rewrite Hrun; reflexivity|exact Hnone].
Defined.

(** C6 at an allocator that answers the request for the table with the
    offset 0 and the request for the buffer [1, 2, 3] with the offset 40, in
    a memory of 32 bytes: [allocate] panics. *)
Lemma allocate_element_offset_past_end_witness :
  allocate leaping_guest [bytes_123] = Panics slice_bounds_out_of_range /\
  returned_error (allocate leaping_guest [bytes_123]) = None.
Proof.
  apply (allocate_element_offset_past_end leaping_guest
           (with_state leaping_guest (zeros 32, 40))
           (with_state leaping_guest (zeros 32, 40))
           (with_state leaping_guest (zeros 32, 80))
           [bytes_123] [] bytes_123 []
           {| value_bits := 0 |} {| value_bits := 40 |} {| base := 0; size := 32 |}).
  - reflexivity.
  - reflexivity.
  - reflexivity.
  - vm_compute. discriminate.
  - reflexivity.
  - reflexivity.
  - right. reflexivity.
Defined.

(** ** The public operations *)

Section Operations.
Context {G : Type}.
Variable NewInstance : list byte -> result (Instance G).
Variable IsPrint : Z -> bool.
Implicit Types (instance : Instance G) (code params data : list byte).

Lemma allocateInner_Exports instance instance' (each : list byte) (r : result Z) :
  allocateInner instance each = Returns (r, instance') ->
  Exports instance' = Exports instance.
Proof.
  unfold allocateInner, call, invoke.
  destruct (Exports instance !! "__allocate") as [alloc|]; [|discriminate].
  destruct (alloc _ _ _) as [st [res|err]].
  - destruct (slice_from _ _) as [mem|]; [|discriminate].
    destruct (size mem <? len each); intros Heq; injection Heq as _ <-; reflexivity.
  - intros Heq. injection Heq as _ <-. reflexivity.
Qed.

Lemma allocate_loop_Exports (mem : view) (data : list (list byte)) :
  forall instance instance' (idx : Z) (r : result unit),
    allocate_loop instance mem idx data = Returns (r, instance') ->
    Exports instance' = Exports instance.
Proof.
  induction data as [|each rest IH]; intros instance instance' idx r; cbn [allocate_loop].
  - intros Heq. injection Heq as _ <-. reflexivity.
  - destruct (allocateInner instance each) as [[[loc|err] instance1]|p] eqn:Hinner;
      try discriminate.
    + destruct (sub_slice _ _ _) as [b|]; [|discriminate].
      unfold PutUint64. destruct (7 <? size b); [|discriminate].
      intros Hrest. rewrite (IH _ _ _ _ Hrest). cbn [with_memory with_state Exports].
      exact (allocateInner_Exports _ _ _ _ Hinner).
    + intros Heq. injection Heq as _ <-.
      exact (allocateInner_Exports _ _ _ _ Hinner).
Qed.

Lemma allocate_Exports instance instance' (data : list (list byte)) (r : result Z) :
  allocate instance data = Returns (r, instance') ->
  Exports instance' = Exports instance.
Proof.
  unfold allocate, call, invoke.
  destruct (Exports instance !! "__allocate") as [alloc|]; [|discriminate].
  destruct (alloc _ _ _) as [st [res|err]].
  - destruct (slice_from _ _) as [mem|]; [|discriminate].
    destruct (size mem <? int (8 * len data)).
    + intros Heq. injection Heq as _ <-. reflexivity.
    + destruct (allocate_loop _ _ _ _) as [[[u|err] instance1]|p] eqn:Hloop;
        try discriminate.
      * intros Heq. injection Heq as _ <-.
        rewrite (allocate_loop_Exports _ _ _ _ _ _ Hloop). reflexivity.
      * intros Heq. injection Heq as _ <-.
        rewrite (allocate_loop_Exports _ _ _ _ _ _ Hloop). reflexivity.
  - intros Heq. injection Heq as _ <-. reflexivity.
Qed.

Lemma lookup_call_parse_missing instance (name : string) (args : list arg) :
  Exports instance !! name = None ->
  lookup_call_parse instance name args
  = Returns (Err (errors_New (name +:+ " not implemented"))).
Proof. intros Hnone. unfold lookup_call_parse. rewrite Hnone. reflexivity. Qed.

(** C7.  When writing the params buffer returns an error, [ParseRawData]
    does not return it: the error is overwritten by the outcome of the data
    write, and once that write succeeds the operation goes on to look up and
    call [__parse_raw_data] with the zero descriptor in place of the params. *)
Theorem ParseRawData_drops_params_error code params data instance instance1
    instance2 (err : error) (dataInput : Z) :
  NewInstance code = Ok instance ->
  storeParams instance params = Returns (Err err, instance1) ->
  allocateInner instance1 data = Returns (Ok dataInput, instance2) ->
  ParseRawData NewInstance code params data
  = lookup_call_parse instance2 "__parse_raw_data"
      [arg_int64 0; arg_int64 dataInput].
Proof.
  intros Hnew Hparams Hdata. unfold ParseRawData.
  rewrite Hnew, Hparams, Hdata. reflexivity.
Qed.

(** C10.  In [ParseRawData] the missing export is reported although the
    write of the params buffer has failed: only the data write is checked
    before the lookup. *)
Theorem ParseRawData_missing_export_after_failed_write code params data
    instance instance1 instance2 (err : error) (dataInput : Z) :
  NewInstance code = Ok instance ->
  Exports instance !! "__parse_raw_data" = None ->
  storeParams instance params = Returns (Err err, instance1) ->
  allocateInner instance1 data = Returns (Ok dataInput, instance2) ->
  ParseRawData NewInstance code params data
  = Returns (Err (errors_New "__parse_raw_data not implemented")).
Proof.
  intros Hnew Hnone Hparams Hdata. unfold ParseRawData.
  rewrite Hnew, Hparams, Hdata.
  apply lookup_call_parse_missing.
  rewrite (allocateInner_Exports _ _ _ _ Hdata).
  unfold storeParams in Hparams. rewrite (allocateInner_Exports _ _ _ _ Hparams).
  exact Hnone.
Qed.

Lemma allocateInner_write_error instance instance' (each : list byte) (err : error) :
  allocateInner instance each = Returns (Err err, instance') -> write_error err.
Proof.
  unfold allocateInner, call, invoke.
  destruct (Exports instance !! "__allocate") as [alloc|]; [|discriminate].
  destruct (alloc _ _ _) as [st [res|msg]].
  - destruct (slice_from _ _) as [mem|]; [|discriminate].
    destruct (size mem <? len each); [|discriminate].
    intros Heq. injection Heq as <- _. right. left. reflexivity.
  - intros Heq. injection Heq as <- _. left. exists msg. reflexivity.
Qed.

Lemma allocate_loop_write_error (mem : view) (data : list (list byte)) :
  forall instance instance' (idx : Z) (err : error),
    allocate_loop instance mem idx data = Returns (Err err, instance') ->
    write_error err.
Proof.
  induction data as [|each rest IH]; intros instance instance' idx err;
    cbn [allocate_loop]; [discriminate|].
  destruct (allocateInner instance each) as [[[loc|err0] instance1]|p] eqn:Hinner;
    try discriminate.
  - destruct (sub_slice _ _ _) as [b|]; [|discriminate].
    unfold PutUint64. destruct (7 <? size b); [|discriminate]. apply IH.
  - intros Heq. injection Heq as <- _.
    exact (allocateInner_write_error _ _ _ _ Hinner).
Qed.

Lemma allocate_write_error instance instance' (data : list (list byte)) (err : error) :
  allocate instance data = Returns (Err err, instance') -> write_error err.
Proof.
  unfold allocate, call, invoke.
  destruct (Exports instance !! "__allocate") as [alloc|]; [|discriminate].
  destruct (alloc _ _ _) as [st [res|msg]].
  - destruct (slice_from _ _) as [mem|]; [|discriminate].
    destruct (size mem <? int (8 * len data)).
    + intros Heq. injection Heq as <- _. right. right. reflexivity.
    + destruct (allocate_loop _ _ _ _) as [[[u|err0] instance1]|p] eqn:Hloop;
        try discriminate.
      intros Heq. injection Heq as <- _.
      exact (allocate_loop_write_error _ _ _ _ _ _ Hloop).
  - intros Heq. injection Heq as <- _. left. exists msg. reflexivity.
Qed.

(** The part of C10 that holds: in [ParseParams], [Prepare] and [Execute]
    the missing export is reported only after every input write has
    returned a descriptor, and a missing [__allocate] is called all the same. *)
Lemma ParseParams_missing_export_only_after_write code params instance :
  NewInstance code = Ok instance ->
  ParseParams NewInstance code params
    = Returns (Err (errors_New "__parse_params not implemented")) ->
  succeeded (storeParams instance params) = true.
Proof.
  intros Hnew. unfold ParseParams. rewrite Hnew.
  destruct (storeParams instance params) as [[[loc|err] instance1]|p] eqn:Hstore;
    [reflexivity| |discriminate].
  intros Heq. injection Heq as ->.
  destruct (allocateInner_write_error _ _ _ _ Hstore) as [[msg Hm]|[Hm|Hm]];
    discriminate Hm.
Qed.

Lemma Prepare_missing_export_only_after_write code params instance :
  NewInstance code = Ok instance ->
  Prepare NewInstance code params
    = Returns (Err (errors_New "__prepare not implemented")) ->
  succeeded (storeParams instance params) = true.
Proof.
  intros Hnew. unfold Prepare. rewrite Hnew.
  destruct (storeParams instance params) as [[[loc|err] instance1]|p] eqn:Hstore;
    [reflexivity| |discriminate].
  intros Heq. injection Heq as ->.
  destruct (allocateInner_write_error _ _ _ _ Hstore) as [[msg Hm]|[Hm|Hm]];
    discriminate Hm.
Qed.

Lemma Execute_missing_export_only_after_writes code params instance
    (inputs : list (list byte)) :
  NewInstance code = Ok instance ->
  Execute NewInstance code params inputs
    = Returns (Err (errors_New "__execute not implemented")) ->
  exists paramsInput instance1,
    storeParams instance params = Returns (Ok paramsInput, instance1) /\
    succeeded (allocate instance1 inputs) = true.
Proof.
  intros Hnew. unfold Execute. rewrite Hnew.
  destruct (storeParams instance params) as [[[loc|err] instance1]|p] eqn:Hstore;
    [| |discriminate].
  - destruct (allocate instance1 inputs) as [[[d|err] instance2]|p] eqn:Harr;
      [| |discriminate].
    + intros _. exists loc, instance1. rewrite Harr. split; reflexivity.
    + intros Heq. injection Heq as ->.
      destruct (allocate_write_error _ _ _ _ Harr) as [[msg Hm]|[Hm|Hm]];
        discriminate Hm.
  - intros Heq. injection Heq as ->.
    destruct (allocateInner_write_error _ _ _ _ Hstore) as [[msg Hm]|[Hm|Hm]];
      discriminate Hm.
Qed.

Lemma allocateInner_without_allocator instance (each : list byte) :
  Exports instance !! "__allocate" = None ->
  allocateInner instance each = Panics nil_func_call.
Proof. intros Hnone. unfold allocateInner, call. rewrite Hnone. reflexivity. Qed.

End Operations.

(** C7 at a guest with 32 bytes of memory, a params buffer of 40 bytes and
    the data buffer [1, 2, 3]: the allocator refuses the params, and
    [ParseRawData] returns the guest's result instead of that error. *)
Lemma ParseRawData_drops_params_error_witness :
  returned_error (storeParams echo_guest (zeros 40))
    = Some (engine_error "out of memory") /\
  ParseRawData (fixed_engine echo_guest) [] (zeros 40) bytes_123 = Returns (Ok bytes_123).
Proof.
  split; [reflexivity|].
  pose (instance1 := with_state echo_guest (zeros 32, 0)).
  pose (instance2 := copy (with_state instance1 (zeros 32, 3))
                       {| base := 0; size := 32 |} bytes_123).
  rewrite (ParseRawData_drops_params_error (fixed_engine echo_guest) [] (zeros 40) bytes_123
             echo_guest instance1 instance2 (engine_error "out of memory") (pack 3 0));
    reflexivity.
Defined.

(** C10 at a guest that exports the allocator alone, with the same buffers:
    the missing export is reported after a failed params write. *)
Lemma ParseRawData_missing_export_after_failed_write_witness :
  returned_error (storeParams bare (zeros 40))
    = Some (engine_error "out of memory") /\
  ParseRawData (fixed_engine bare) [] (zeros 40) bytes_123
    = Returns (Err (errors_New "__parse_raw_data not implemented")).
Proof.
  split; [reflexivity|].
  pose (instance1 := with_state bare (zeros 32, 0)).
  pose (instance2 := copy (with_state instance1 (zeros 32, 3))
                       {| base := 0; size := 32 |} bytes_123).
  apply (ParseRawData_missing_export_after_failed_write (fixed_engine bare)
           [] (zeros 40) bytes_123 bare instance1 instance2
           (engine_error "out of memory") (pack 3 0));
    reflexivity.
Defined.

Section PublicContract.
Context {G : Type}.
Variable NewInstance : list byte -> result (Instance G).
Variable IsPrint : Z -> bool.
Implicit Types (instance : Instance G) (code params data : list byte).

Lemma missing_after_write instance instance' (each : list byte) (r : result Z)
    (name : string) (args : list arg) :
  allocateInner instance each = Returns (r, instance') ->
  Exports instance !! name = None ->
  lookup_call_parse instance' name args
  = Returns (Err (errors_New (name +:+ " not implemented"))).
Proof.
  intros Hwrite Hnone. apply lookup_call_parse_missing.
  rewrite (allocateInner_Exports _ _ _ _ Hwrite). exact Hnone.
Qed.

(** C8, as amended.  Against a module that instantiates and lacks the
    export of an operation: [Name], [ParamsInfo] and [RawDataInfo] fail with
    the error that names the export; [ParseParams], [Prepare],
    [ParseRawData] and [Execute] do so once their input writes have returned
    descriptors, the writes coming before the lookup. *)
Theorem missing_export_rejected code instance :
  NewInstance code = Ok instance ->
  (Exports instance !! "__name" = None ->
   Name NewInstance IsPrint code
   = Returns (Err (errors_New "__name not implemented"))) /\
  (Exports instance !! "__params_info" = None ->
   ParamsInfo NewInstance code
   = Returns (Err (errors_New "__params_info not implemented"))) /\
  (Exports instance !! "__raw_data_info" = None ->
   RawDataInfo NewInstance code
   = Returns (Err (errors_New "__raw_data_info not implemented"))) /\
  (forall params,
     Exports instance !! "__parse_params" = None ->
     succeeded (storeParams instance params) = true ->
     ParseParams NewInstance code params
     = Returns (Err (errors_New "__parse_params not implemented"))) /\
  (forall params,
     Exports instance !! "__prepare" = None ->
     succeeded (storeParams instance params) = true ->
     Prepare NewInstance code params
     = Returns (Err (errors_New "__prepare not implemented"))) /\
  (forall params data (paramsInput : Z) instance1,
     Exports instance !! "__parse_raw_data" = None ->
     storeParams instance params = Returns (Ok paramsInput, instance1) ->
     succeeded (allocateInner instance1 data) = true ->
     ParseRawData NewInstance code params data
     = Returns (Err (errors_New "__parse_raw_data not implemented"))) /\
  (forall params (inputs : list (list byte)) (paramsInput : Z) instance1,
     Exports instance !! "__execute" = None ->
     storeParams instance params = Returns (Ok paramsInput, instance1) ->
     succeeded (allocate instance1 inputs) = true ->
     Execute NewInstance code params inputs
     = Returns (Err (errors_New "__execute not implemented"))).
Proof.
  intros Hnew. repeat split.
  - intros Hnone. unfold Name. rewrite Hnew, Hnone. reflexivity.
  - intros Hnone. unfold ParamsInfo. rewrite Hnew.
    apply (lookup_call_parse_missing _ "__params_info" _ Hnone).
  - intros Hnone. unfold RawDataInfo. rewrite Hnew.
    apply (lookup_call_parse_missing _ "__raw_data_info" _ Hnone).
  - intros params Hnone Hok. unfold ParseParams. rewrite Hnew.
    destruct (storeParams instance params) as [[[loc|err] instance1]|p] eqn:Hstore;
      try discriminate Hok.
    apply (missing_after_write _ _ _ _ "__parse_params" _ Hstore Hnone).
  - intros params Hnone Hok. unfold Prepare. rewrite Hnew.
    destruct (storeParams instance params) as [[[loc|err] instance1]|p] eqn:Hstore;
      try discriminate Hok.
    apply (missing_after_write _ _ _ _ "__prepare" _ Hstore Hnone).
  - intros params data paramsInput instance1 Hnone Hstore Hok.
    unfold ParseRawData. rewrite Hnew, Hstore.
    destruct (allocateInner instance1 data) as [[[loc|err] instance2]|p] eqn:Hdata;
      try discriminate Hok.
    apply (missing_after_write _ _ _ _ "__parse_raw_data" _ Hdata).
    rewrite (allocateInner_Exports _ _ _ _ Hstore). exact Hnone.
  - intros params inputs paramsInput instance1 Hnone Hstore Hok.
    unfold Execute. rewrite Hnew, Hstore.
    destruct (allocate instance1 inputs) as [[[d|err] instance2]|p] eqn:Harr;
      try discriminate Hok.
    apply (lookup_call_parse_missing _ "__execute").
    rewrite (allocate_Exports _ _ _ _ Harr).
    rewrite (allocateInner_Exports _ _ _ _ Hstore). exact Hnone.
Qed.

Lemma Name_loop_true (chs : list Z) :
  Forall (fun ch => IsPrint ch = true) chs -> Name_loop IsPrint chs = true.
Proof.
  induction 1 as [|ch chs Hch _ IH]; cbn [Name_loop]; [reflexivity|].
  rewrite Hch. exact IH.
Qed.

Lemma Name_loop_false (chs : list Z) :
  Exists (fun ch => IsPrint ch = false) chs -> Name_loop IsPrint chs = false.
Proof.
  induction 1 as [ch chs Hch|ch chs _ IH]; cbn [Name_loop].
  - rewrite Hch. reflexivity.
  - destruct (IsPrint ch); [exact IH|reflexivity].
Qed.

(** C9.  Once [__name] has returned a descriptor that [parseOutput] reads
    as [rawResult]: if every character the range loop decodes is printable,
    [Name] returns the bytes as they are; if one of them is not, [Name]
    fails with the invalid-name error. *)
Theorem Name_validates_characters code instance instance1 (fn : guest_fn G)
    (ptr : Value) (rawResult : list byte) :
  NewInstance code = Ok instance ->
  Exports instance !! "__name" = Some fn ->
  invoke instance fn [] = (Ok ptr, instance1) ->
  parseOutput instance1 (ToI64 ptr) = Returns (Ok rawResult) ->
  (Forall (fun ch => IsPrint ch = true) (runes rawResult) ->
   Name NewInstance IsPrint code = Returns (Ok rawResult)) /\
  (Exists (fun ch => IsPrint ch = false) (runes rawResult) ->
   Name NewInstance IsPrint code
   = Returns (Err (errors_New "Invalid name character"))).
Proof.
  intros Hnew Hexp Hcall Hparse. unfold Name.
  rewrite Hnew, Hexp, Hcall, Hparse. split; intros Hchs.
  - rewrite Name_loop_true by exact Hchs. reflexivity.
  - rewrite Name_loop_false by exact Hchs. reflexivity.
Qed.

End PublicContract.

Lemma missing_export_rejected_witness :
  Name (fixed_engine bare) ascii_print []
    = Returns (Err (errors_New "__name not implemented")) /\
  ParamsInfo (fixed_engine bare) []
    = Returns (Err (errors_New "__params_info not implemented")) /\
  RawDataInfo (fixed_engine bare) []
    = Returns (Err (errors_New "__raw_data_info not implemented")) /\
  ParseParams (fixed_engine bare) [] bytes_123
    = Returns (Err (errors_New "__parse_params not implemented")) /\
  Prepare (fixed_engine bare) [] bytes_123
    = Returns (Err (errors_New "__prepare not implemented")) /\
  ParseRawData (fixed_engine bare) [] bytes_123 [Byte.x07]
    = Returns (Err (errors_New "__parse_raw_data not implemented")) /\
  Execute (fixed_engine bare) [] bytes_123 three_buffers
    = Returns (Err (errors_New "__execute not implemented")).
Proof.
  pose (instance1 := copy (with_state bare (zeros 32, 3))
                       {| base := 0; size := 32 |} bytes_123).
  destruct (missing_export_rejected (fixed_engine bare) ascii_print [] bare eq_refl)
    as (HName & HParamsInfo & HRawDataInfo & HParseParams & HPrepare
        & HParseRawData & HExecute).
  split; [apply HName; reflexivity|].
  split; [apply HParamsInfo; reflexivity|].
  split; [apply HRawDataInfo; reflexivity|].
  split; [apply HParseParams; [reflexivity|vm_compute; reflexivity]|].
  split; [apply HPrepare; [reflexivity|vm_compute; reflexivity]|].
  split.
  - apply (HParseRawData bytes_123 [Byte.x07] (pack 3 0) instance1);
      [reflexivity|reflexivity|vm_compute; reflexivity].
  - apply (HExecute bytes_123 three_buffers (pack 3 0) instance1);
      [reflexivity|reflexivity|vm_compute; reflexivity].
Defined.

(** C8, as stated, fails for [ParseParams] against a module that lacks
    [__parse_params] when the params do not fit the guest's memory: the
    error of the write is returned, not the missing export. *)
Lemma missing_export_masked_by_failed_write :
  Exports bare !! "__parse_params" = None /\
  ParseParams (fixed_engine bare) [] (zeros 40)
    = Returns (Err (engine_error "out of memory")).
Proof. split; reflexivity. Qed.

(** Against a module that lacks [__allocate] as well, the write panics. *)
Lemma missing_allocator_panics :
  Exports four_bytes !! "__parse_params" = None /\
  Exports four_bytes !! "__allocate" = None /\
  ParseParams (fixed_engine four_bytes) [] bytes_123 = Panics nil_func_call.
Proof. repeat split; reflexivity. Qed.

Lemma Name_validates_characters_witness :
  Name (fixed_engine named_abc) ascii_print []
    = Returns (Ok [Byte.x61; Byte.x62; Byte.x63]) /\
  Name (fixed_engine named_line_feed) ascii_print []
    = Returns (Err (errors_New "Invalid name character")).
Proof.
  split.
  - apply (Name_validates_characters (fixed_engine named_abc) ascii_print []
             named_abc (with_state named_abc (Memory named_abc, 3))
             (guest_const (pack 3 0)) {| value_bits := pack 3 0 |}
             [Byte.x61; Byte.x62; Byte.x63]);
      try reflexivity.
    repeat constructor.
  - apply (Name_validates_characters (fixed_engine named_line_feed) ascii_print []
             named_line_feed (with_state named_line_feed (Memory named_line_feed, 3))
             (guest_const (pack 3 0)) {| value_bits := pack 3 0 |}
             [Byte.x61; Byte.x0a; Byte.x62]);
      try reflexivity.
    apply Exists_cons_tl, Exists_cons_hd. reflexivity.
Defined.

(** ** ASCII bytes under the range loop

    A byte below [0x80] is never part of a longer encoding, so the loop
    visits it as a character of its own: a control byte of ASCII anywhere in
    the result of [__name] makes [Name] fail. *)

Lemma utf8_first_lo (s0 sz lo hi : Z) :
  utf8_first s0 = Some (sz, (lo, hi)) -> 0x80 <= lo.
Proof.
  unfold utf8_first.
  repeat match goal with
         | |- context [if ?c then _ else _] => destruct c
         end;
    intros Heq; try discriminate Heq; injection Heq as <- <- <-; lia.
Qed.

Lemma lookup_total_byte (t : list byte) (i : nat) (b : byte) :
  t !! i = Some b -> t !!! i = b.
Proof. intros H. apply list_lookup_total_correct. exact H. Qed.

Lemma decodeRune_ascii (b : byte) (t : list byte) :
  byte.unsigned b < 0x80 -> decodeRune (b :: t) = (byte.unsigned b, 1%nat).
Proof.
  intros Hb. unfold decodeRune.
  destruct (Z.ltb_spec (byte.unsigned b) 0x80); [reflexivity|lia].
Qed.

Lemma decodeRune_skips_high (b0 : byte) (t : list byte) (ch : Z) (width : nat) :
  decodeRune (b0 :: t) = (ch, width) ->
  forall (i : nat) (b : byte),
    (i < pred width)%nat -> t !! i = Some b -> 0x80 <= byte.unsigned b.
Proof.
  unfold decodeRune.
  destruct (byte.unsigned b0 <? 0x80);
    [intros Heq; injection Heq as <- <-; intros; simpl in *; lia|].
  destruct (utf8_first (byte.unsigned b0)) as [[sz [lo hi]]|] eqn:Hfirst;
    [|intros Heq; injection Heq as <- <-; intros; simpl in *; lia].
  apply utf8_first_lo in Hfirst.
  destruct (len (b0 :: t) <? sz);
    [intros Heq; injection Heq as <- <-; intros; simpl in *; lia|].
  destruct (Z.ltb_spec (byte.unsigned (t !!! 0%nat)) lo); cbn [orb];
    [intros Heq; injection Heq as <- <-; intros; simpl in *; lia|].
  destruct (hi <? byte.unsigned (t !!! 0%nat));
    [intros Heq; injection Heq as <- <-; intros; simpl in *; lia|].
  destruct (sz <=? 2).
  { intros Heq; injection Heq as <- <-. intros i b Hi Hb.
    assert (i = 0%nat) as -> by (simpl in Hi; lia).
    apply lookup_total_byte in Hb. subst b. lia. }
  unfold continuation.
  destruct (Z.leb_spec 0x80 (byte.unsigned (t !!! 1%nat))); cbn [andb negb];
    [|intros Heq; injection Heq as <- <-; intros; simpl in *; lia].
  destruct (byte.unsigned (t !!! 1%nat) <=? 0xBF); cbn [negb];
    [|intros Heq; injection Heq as <- <-; intros; simpl in *; lia].
  destruct (sz <=? 3).
  { intros Heq; injection Heq as <- <-. intros i b Hi Hb.
    assert (i = 0 \/ i = 1)%nat as [-> | ->] by (simpl in Hi; lia);
      apply lookup_total_byte in Hb; subst b; lia. }
  destruct (Z.leb_spec 0x80 (byte.unsigned (t !!! 2%nat))); cbn [andb negb];
    [|intros Heq; injection Heq as <- <-; intros; simpl in *; lia].
  destruct (byte.unsigned (t !!! 2%nat) <=? 0xBF); cbn [negb];
    [|intros Heq; injection Heq as <- <-; intros; simpl in *; lia].
  intros Heq; injection Heq as <- <-. intros i b Hi Hb.
  assert (i = 0 \/ i = 1 \/ i = 2)%nat as [-> | [-> | ->]] by (simpl in Hi; lia);
    apply lookup_total_byte in Hb; subst b; lia.
Qed.

Lemma runes_from_ascii (s : list byte) :
  forall (skip : nat) (b : byte),
    b ∈ s -> byte.unsigned b < 0x80 ->
    (forall (i : nat) (b' : byte),
       (i < skip)%nat -> s !! i = Some b' -> 0x80 <= byte.unsigned b') ->
    byte.unsigned b ∈ runes_from skip s.
Proof.
  induction s as [|b0 t IH]; intros skip b Hin Hb Hskip.
  - apply elem_of_nil in Hin. contradiction.
  - cbn [runes_from]. destruct skip as [|k].
    + destruct (decodeRune (b0 :: t)) as [ch width] eqn:Hdec.
      apply elem_of_cons in Hin as [->|Hin].
      * rewrite decodeRune_ascii in Hdec by exact Hb. injection Hdec as <- <-.
        apply elem_of_cons. left. reflexivity.
      * apply elem_of_cons. right. apply IH; [exact Hin|exact Hb|].
        exact (decodeRune_skips_high _ _ _ _ Hdec).
    + apply elem_of_cons in Hin as [->|Hin].
      * specialize (Hskip 0%nat b0 ltac:(lia) eq_refl). lia.
      * apply IH; [exact Hin|exact Hb|].
        intros i b' Hi Hb'. apply (Hskip (S i) b'); [lia|exact Hb'].
Qed.

(** X12.  A byte below [0x80] that is not printable, anywhere in the result
    of [__name], makes [Name] fail with the invalid-name error, whatever the
    bytes around it encode. *)
Lemma Name_rejects_ascii_control {G : Type}
    (NewInstance : list byte -> result (Instance G)) (IsPrint : Z -> bool)
    (code : list byte) (instance instance1 : Instance G) (fn : guest_fn G)
    (ptr : Value) (rawResult : list byte) (b : byte) :
  NewInstance code = Ok instance ->
  Exports instance !! "__name" = Some fn ->
  invoke instance fn [] = (Ok ptr, instance1) ->
  parseOutput instance1 (ToI64 ptr) = Returns (Ok rawResult) ->
  b ∈ rawResult -> byte.unsigned b < 0x80 -> IsPrint (byte.unsigned b) = false ->
  Name NewInstance IsPrint code
  = Returns (Err (errors_New "Invalid name character")).
Proof.
  intros Hnew Hexp Hcall Hparse Hin Hb Hctl. unfold Name.
  rewrite Hnew, Hexp, Hcall, Hparse.
  rewrite Name_loop_false; [reflexivity|].
  apply Exists_exists. exists (byte.unsigned b). split; [|exact Hctl].
  unfold runes. apply runes_from_ascii; [exact Hin|exact Hb|].
  intros i b' Hi. lia.
Qed.

(** * Further properties of the package *)

(** ** [parseOutput] in closed form *)

Section ReaderOutcome.
Context {G : Type}.
Implicit Types (instance : Instance G).

(** X1.  The outcome of [parseOutput] is decided by three comparisons on
    the unpacked descriptor: an offset past the end of the memory panics on
    the slice expression, a length beyond what is left of the memory returns
    the error, a negative length panics in [make], and in every other case
    the copy loop runs to its end without indexing out of range and the
    result is exactly the [sz] bytes from [pointer] on. *)
Theorem parseOutput_outcome instance (ptr : Z) :
  parseOutput instance ptr =
    if len (Memory instance) <? snd (unpack ptr)
    then Panics slice_bounds_out_of_range
    else if len (Memory instance) - snd (unpack ptr) <? fst (unpack ptr)
    then Returns (Err (errors_New "parseOutput: invalid memory size"))
    else if fst (unpack ptr) <? 0
    then Panics makeslice_len_out_of_range
    else Returns (Ok (take (Z.to_nat (fst (unpack ptr)))
                        (drop (Z.to_nat (snd (unpack ptr))) (Memory instance)))).
Proof.
  pose proof (descriptor_offset_range ptr) as Hp. rewrite <- unpack_offset in Hp.
  destruct (unpack ptr) as [sz pointer] eqn:Hu. cbn [fst snd] in *.
  destruct (Z.ltb_spec (len (Memory instance)) pointer) as [Hout|Hin].
  - unfold parseOutput. rewrite Hu. rewrite slice_from_None by lia. reflexivity.
  - destruct (Z.ltb_spec (len (Memory instance) - pointer) sz) as [Hex|Hfit].
    + apply (parseOutput_rejects _ _ _ _ Hu); lia.
    + destruct (Z.ltb_spec sz 0) as [Hneg|Hpos].
      * apply (parseOutput_negative_length _ _ _ _ Hu); lia.
      * apply (parseOutput_in_range _ _ _ _ Hu); lia.
Qed.

(** The only panics of [parseOutput] are those of the slice expression and
    of [make]. *)
Lemma parseOutput_panic_kinds instance (ptr : Z) (p : panic) :
  parseOutput instance ptr = Panics p ->
  p = slice_bounds_out_of_range \/ p = makeslice_len_out_of_range.
Proof.
  pose proof (descriptor_offset_range ptr) as Hp. rewrite <- unpack_offset in Hp.
  destruct (unpack ptr) as [sz pointer] eqn:Hu. cbn [fst snd] in *.
  destruct (Z.lt_ge_cases (len (Memory instance)) pointer) as [Hout|Hin].
  - unfold parseOutput. rewrite Hu. rewrite slice_from_None by lia.
    intros Heq. injection Heq as <-. left. reflexivity.
  - destruct (Z.lt_ge_cases (len (Memory instance) - pointer) sz) as [Hex|Hfit].
    + rewrite (parseOutput_rejects _ _ _ _ Hu) by lia. discriminate.
    + destruct (Z.lt_ge_cases sz 0) as [Hneg|Hpos].
      * rewrite (parseOutput_negative_length _ _ _ _ Hu) by lia.
        intros Heq. injection Heq as <-. right. reflexivity.
      * rewrite (parseOutput_in_range _ _ _ _ Hu) by lia. discriminate.
Qed.

End ReaderOutcome.

(** ** What one write does to the instance *)

Section WriteEffect.
Context {G : Type}.
Implicit Types (instance : Instance G) (data : list byte).

Lemma call_of_alloc instance (alloc : guest_fn G) (args : list arg)
    (mem1 : list byte) (g1 : G) (res : Value) :
  Exports instance !! "__allocate" = Some alloc ->
  alloc args (Memory instance) (guest instance) = ((mem1, g1), inl res) ->
  call instance "__allocate" args
  = Returns (Ok res, with_state instance (mem1, g1)).
Proof.
  intros Hexp Hcall. unfold call, invoke. rewrite Hexp, Hcall. reflexivity.
Qed.

(** X2.  A successful [allocateInner] changes the instance the allocator
    call left behind in one way only: the bytes of [data] now lie in the
    range the allocator returned.  The memory keeps its length, every byte
    outside that range keeps its value, and the guest's state and the export
    table are untouched by the host. *)
Theorem allocateInner_writes_only_its_range instance instance' data (loc : Z) :
  allocateInner instance data = Returns (Ok loc, instance') ->
  exists res instance1,
    call instance "__allocate" [arg_int (len data)] = Returns (Ok res, instance1) /\
    0 <= ToI32 res /\ ToI32 res + len data <= len (Memory instance1) /\
    stored_at (Memory instance') (ToI32 res) data /\
    len (Memory instance') = len (Memory instance1) /\
    guest instance' = guest instance1 /\
    Exports instance' = Exports instance /\
    forall a, 0 <= a -> ~ (ToI32 res <= a < ToI32 res + len data) ->
              Memory instance' !! Z.to_nat a = Memory instance1 !! Z.to_nat a.
Proof.
  intros Hrun.
  destruct (allocateInner_inv _ _ _ _ Hrun)
    as (alloc & mem1 & g1 & res & Hexp & Hcall & Hlow & Hfit & _ & ->).
  exists res, (with_state instance (mem1, g1)).
  cbn [with_state Memory guest Exports fst snd].
  split; [exact (call_of_alloc _ _ _ _ _ _ Hexp Hcall)|].
  split; [exact Hlow|]. split; [exact Hfit|].
  split; [apply stored_at_inserts; assumption|].
  split; [unfold len; rewrite length_inserts; reflexivity|].
  split; [reflexivity|]. split; [reflexivity|].
  intros a Ha Hout. apply lookup_inserts_outside; assumption.
Qed.

(** X3.  The descriptor [allocateInner] returns for a buffer shorter than
    [2^32] bytes carries, as unsigned 32-bit fields, the length of the buffer
    and an offset below [2^31], and dereferencing it by these fields yields
    the buffer: the packing is right bit for bit also for the lengths from
    [2^31] on that [parseOutput] cannot read. *)
Theorem allocateInner_descriptor_fields instance instance' data (loc : Z) :
  allocateInner instance data = Returns (Ok loc, instance') ->
  len data < 2 ^ 32 ->
  descriptor_length loc = len data /\
  0 <= descriptor_offset loc < 2 ^ 31 /\
  stored_at (Memory instance') (descriptor_offset loc) data /\
  dereference instance' loc = Some data.
Proof.
  intros Hrun Hshort. pose proof (len_nonneg data) as Hn.
  destruct (allocateInner_inv _ _ _ _ Hrun)
    as (alloc & mem1 & g1 & res & _ & _ & Hlow & Hfit & -> & ->).
  pose proof (int32_range (value_bits res)) as Hr. fold (ToI32 res) in Hr.
  destruct (descriptor_fields_pack (len data) (ToI32 res)) as [Hlength Hoffset];
    [lia|lia|].
  cbn [Memory].
  assert (Hst : stored_at (list_inserts (Z.to_nat (ToI32 res)) data mem1)
                  (ToI32 res) data) by (apply stored_at_inserts; assumption).
  rewrite Hlength, Hoffset. split; [reflexivity|]. split; [lia|].
  split; [exact Hst|].
  unfold dereference. rewrite Hlength, Hoffset. cbn [Memory].
  destruct Hst as (_ & Hin & _).
  destruct (Z.leb_spec (ToI32 res + len data)
              (len (list_inserts (Z.to_nat (ToI32 res)) data mem1))); [|lia].
  unfold len. rewrite Nat2Z.id.
  rewrite take_drop_inserts by (unfold len in *; lia). reflexivity.
Qed.

End WriteEffect.

(** ** Several inputs in one instance *)

Section InputsReadable.
Context {G : Type}.
Implicit Types (instance : Instance G).

(** A buffer shorter than [2^31] bytes that lies at an offset below [2^31]
    is what [parseOutput] makes of its descriptor, and the descriptor passes
    through an [int64] unchanged. *)
Lemma parseOutput_stored instance (bs : list byte) (p : Z) :
  stored_at (Memory instance) p bs -> p < 2 ^ 31 -> len bs < 2 ^ 31 ->
  int64 (pack (len bs) p) = pack (len bs) p /\
  parseOutput instance (pack (len bs) p) = Returns (Ok bs).
Proof.
  intros Hst Hp Hshort. pose proof (len_nonneg bs) as Hn.
  pose proof Hst as (Hp0 & Hfit & _).
  rewrite pack_nonneg_offset by lia.
  destruct (Z.ltb_spec (len bs) (2 ^ 31)); [|lia].
  split; [apply int64_id; lia|].
  erewrite parseOutput_in_range; [|apply unpack_high_low; lia|lia|lia|exact Hfit].
  unfold len. rewrite Nat2Z.id. rewrite (stored_at_take_drop _ _ _ Hst).
  reflexivity.
Qed.

(** X6.  [ParseParams] and [Prepare] against an export that hands its
    argument back and leaves the memory alone return the params themselves:
    the descriptor of the write reaches the export as it is, and what the
    write stored is what the reader finds. *)
Theorem ParseParams_Prepare_return_params
    (NewInstance : list byte -> result (Instance G))
    (code params : list byte) instance instance1 (loc : Z) (fn : guest_fn G) :
  NewInstance code = Ok instance ->
  storeParams instance params = Returns (Ok loc, instance1) ->
  len params < 2 ^ 31 ->
  (forall (d : Z) (mem : list byte) (g : G),
     exists g', fn [arg_int64 d] mem g = ((mem, g'), inl {| value_bits := d |})) ->
  (Exports instance !! "__parse_params" = Some fn ->
   ParseParams NewInstance code params = Returns (Ok params)) /\
  (Exports instance !! "__prepare" = Some fn ->
   Prepare NewInstance code params = Returns (Ok params)).
Proof.
  intros Hnew Hstore Hshort Hecho. unfold storeParams in Hstore.
  pose proof (allocateInner_Exports _ _ _ _ Hstore) as Hexp1.
  destruct (allocateInner_inv _ _ _ _ Hstore)
    as (alloc & mem1 & g1 & res & _ & _ & Hlow & Hfit & Hloc & Hinst).
  pose proof (int32_range (value_bits res)) as Hr. fold (ToI32 res) in Hr.
  assert (Hst : stored_at (Memory instance1) (ToI32 res) params).
  { rewrite Hinst. cbn [Memory]. apply stored_at_inserts; assumption. }
  destruct (Hecho loc (Memory instance1) (guest instance1)) as [g' Hcall].
  assert (Htail : forall name, Exports instance !! name = Some fn ->
            lookup_call_parse instance1 name [arg_int64 loc] = Returns (Ok params)).
  { intros name Hexp. unfold lookup_call_parse, invoke.
    rewrite Hexp1, Hexp, Hcall. unfold ToI64. cbn [value_bits].
    assert (Hread : forall instance2, Memory instance2 = Memory instance1 ->
              parseOutput instance2 (int64 loc) = Returns (Ok params)).
    { intros instance2 Hmem. rewrite <- Hmem in Hst.
      destruct (parseOutput_stored instance2 params (ToI32 res) Hst) as [Hid Hparse];
        [lia|exact Hshort|].
      rewrite Hloc, Hid. exact Hparse. }
    apply Hread. reflexivity. }
  split; intros Hexp.
  - unfold ParseParams, storeParams. rewrite Hnew, Hstore. apply Htail, Hexp.
  - unfold Prepare, storeParams. rewrite Hnew, Hstore. apply Htail, Hexp.
Qed.

Variable owned : G -> Z -> Prop.
Variable alloc : guest_fn G.
Hypothesis Hfresh : fresh_allocator owned alloc.
Variable NewInstance : list byte -> result (Instance G).

(** X4.  The two writes of [ParseRawData] do not disturb each other when
    the allocator hands out fresh ranges: the export is called with the two
    descriptors on an instance in which the reader finds the params at the
    first and the data at the second. *)
Theorem ParseRawData_both_inputs_readable (code params data : list byte)
    instance instance1 instance2 (paramsInput dataInput : Z) :
  NewInstance code = Ok instance ->
  Exports instance !! "__allocate" = Some alloc ->
  storeParams instance params = Returns (Ok paramsInput, instance1) ->
  allocateInner instance1 data = Returns (Ok dataInput, instance2) ->
  len params < 2 ^ 31 -> len data < 2 ^ 31 ->
  ParseRawData NewInstance code params data
  = lookup_call_parse instance2 "__parse_raw_data"
      [arg_int64 paramsInput; arg_int64 dataInput] /\
  parseOutput instance2 paramsInput = Returns (Ok params) /\
  parseOutput instance2 dataInput = Returns (Ok data).
Proof.
  intros Hnew Hexp Hstore Hdata Hshort1 Hshort2.
  split.
  { unfold ParseRawData. rewrite Hnew, Hstore, Hdata. reflexivity. }
  unfold storeParams in Hstore.
  destruct (allocateInner_fresh owned alloc _ _ _ _ Hfresh Hexp Hstore)
    as (p1 & -> & Hp1 & Hst1 & _ & Hgot1 & _ & _ & _ & Hexp1).
  rewrite <- Hexp1 in Hexp.
  destruct (allocateInner_fresh owned alloc _ _ _ _ Hfresh Hexp Hdata)
    as (p2 & -> & Hp2 & Hst2 & _ & _ & _ & Hsame & Hgrow & _).
  split.
  - apply parseOutput_stored; [|lia|exact Hshort1].
    apply stored_at_frame with (M := Memory instance1); [exact Hst1|exact Hgrow|].
    intros a Ha. apply Hsame; [apply Hgot1, Ha|].
    destruct Hst1 as (_ & Hin & _). lia.
  - apply parseOutput_stored; [exact Hst2|lia|exact Hshort2].
Qed.

(** An array write keeps the bytes the allocator had handed out before. *)
Lemma allocate_keeps_owned instance instance' (data : list (list byte)) (d : Z) :
  Exports instance !! "__allocate" = Some alloc ->
  len data < 2 ^ 60 ->
  allocate instance data = Returns (Ok d, instance') ->
  len (Memory instance) <= len (Memory instance') /\
  forall a, owned (guest instance) a -> 0 <= a < len (Memory instance) ->
            Memory instance' !! Z.to_nat a = Memory instance !! Z.to_nat a.
Proof.
  intros Hexp Hk Hrun. pose proof (len_nonneg data) as Hk0.
  destruct (allocate_inv _ _ _ _ Hk Hrun)
    as (res & instance0 & Hcall & Hlow & Hfit & Hloop & _).
  destruct (call_inv _ _ _ _ _ _ Hexp Hcall) as [Halloc Hexp0].
  assert (Hn : 0 <= 8 * len data) by lia.
  destruct (Hfresh _ _ _ _ _ _ Halloc Hn Hlow Hfit)
    as (Hnew & Hgot & Hkeep & Hsame & Hgrow).
  destruct (allocate_loop_layout owned alloc Hfresh
              {| base := ToI32 res; size := len (Memory instance0) - ToI32 res |}
              Hlow data instance0 0 instance')
    as (locs & _ & _ & Hframe & _ & Hgrowf & _); cbn [base size]; try lia.
  - congruence.
  - intros a Ha. apply Hgot. lia.
  - exact Hloop.
  - cbn [base] in Hframe. split; [lia|].
    intros a Ha Hin. rewrite Hframe; [apply Hsame; assumption|apply Hkeep, Ha|lia|].
    intros Htab. apply (Hnew a); [lia|exact Ha].
Qed.

(** X5.  In [Execute] the array write leaves the params in place when the
    allocator hands out fresh ranges: the export is called with the two
    descriptors on an instance in which the reader finds the params at the
    first, and the table at the second yields the inputs in their order. *)
Theorem Execute_both_inputs_readable (code params : list byte)
    (inputs : list (list byte)) instance instance1 instance2
    (paramsInput wasmInput : Z) :
  NewInstance code = Ok instance ->
  Exports instance !! "__allocate" = Some alloc ->
  storeParams instance params = Returns (Ok paramsInput, instance1) ->
  allocate instance1 inputs = Returns (Ok wasmInput, instance2) ->
  len params < 2 ^ 31 -> len inputs < 2 ^ 32 ->
  Forall (fun each => len each < 2 ^ 32) inputs ->
  Execute NewInstance code params inputs
  = lookup_call_parse instance2 "__execute"
      [arg_int64 paramsInput; arg_int64 wasmInput] /\
  parseOutput instance2 paramsInput = Returns (Ok params) /\
  read_table instance2 wasmInput = Some inputs.
Proof.
  intros Hnew Hexp Hstore Harr Hshort Hk Heach.
  pose proof (len_nonneg inputs) as Hk0.
  assert (Hk' : len inputs < 2 ^ 60) by lia.
  split.
  { unfold Execute. rewrite Hnew, Hstore, Harr. reflexivity. }
  unfold storeParams in Hstore.
  destruct (allocateInner_fresh owned alloc _ _ _ _ Hfresh Hexp Hstore)
    as (p1 & -> & Hp1 & Hst1 & _ & Hgot1 & _ & _ & _ & Hexp1).
  rewrite <- Hexp1 in Hexp.
  split.
  - destruct (allocate_keeps_owned _ _ _ _ Hexp Hk' Harr) as [Hgrow Hsame].
    apply parseOutput_stored; [|lia|exact Hshort].
    apply stored_at_frame with (M := Memory instance1); [exact Hst1|exact Hgrow|].
    intros a Ha. apply Hsame; [apply Hgot1, Ha|].
    destruct Hst1 as (_ & Hin & _). lia.
  - destruct (allocate_layout owned alloc Hfresh _ _ _ _ Hexp Hk' Harr)
      as (res & instance0 & locs & _ & -> & Hoff & Hall & Htab).
    destruct (descriptor_fields_pack (len inputs) (ToI32 res)) as [Hlength Hoffset];
      [lia|lia|].
    apply (read_table_of_layout _ locs _ _ (ToI32 res)); try assumption; [lia|].
    apply elements_dereference; assumption.
Qed.

(** X7.  The table [allocate] leaves behind can be read with the package's
    own reader: for buffers shorter than [2^31] bytes, the eight bytes of
    entry [i], taken as a descriptor, are read back by [parseOutput] as
    buffer [i]. *)
Theorem allocate_entries_parseOutput instance instance'
    (data : list (list byte)) (d : Z) :
  Exports instance !! "__allocate" = Some alloc ->
  len data < 2 ^ 32 ->
  Forall (fun each => len each < 2 ^ 31) data ->
  allocate instance data = Returns (Ok d, instance') ->
  forall (i : nat) (each : list byte),
    data !! i = Some each ->
    parseOutput instance' (table_descriptor instance' (descriptor_offset d) i)
    = Returns (Ok each).
Proof.
  intros Hexp Hk Hshort Hrun i each Hi. pose proof (len_nonneg data) as Hk0.
  assert (Hk' : len data < 2 ^ 60) by lia.
  destruct (allocate_layout owned alloc Hfresh _ _ _ _ Hexp Hk' Hrun)
    as (res & instance0 & locs & _ & -> & Hoff & Hall & Htab).
  destruct (descriptor_fields_pack (len data) (ToI32 res)) as [_ ->]; [lia|lia|].
  pose proof (elements_read_back _ _ _ Hall Hshort) as Hread.
  destruct (Forall2_lookup_r _ _ _ _ _ Hread Hi) as (loc & Hloc & Hrange & Hparse).
  rewrite (table_descriptor_stored _ _ _ loc); [|apply (stored_at_entry _ locs); assumption|lia].
  assert (Hnonneg : 0 <= loc).
  { destruct (Forall2_lookup_r _ _ _ _ _ Hall Hi) as (loc' & Hloc' & p & Hpack & Hp & _).
    rewrite Hloc in Hloc'. injection Hloc' as <-.
    assert (Hlen : len each < 2 ^ 31).
    { rewrite Forall_forall in Hshort. apply Hshort.
      apply list_elem_of_lookup. exists i. exact Hi. }
    pose proof (len_nonneg each). rewrite Hpack.
    rewrite pack_nonneg_offset by lia.
    destruct (Z.ltb_spec (len each) (2 ^ 31)); lia. }
  unfold uint64. rewrite Z.mod_small by lia. exact Hparse.
Qed.

End InputsReadable.

(** ** The panics and the errors of the operations *)

Section Outcomes.
Context {G : Type}.
Implicit Types (instance : Instance G).

Lemma parseOutput_error_kind instance (ptr : Z) (err : error) :
  parseOutput instance ptr = Returns (Err err) ->
  err = errors_New "parseOutput: invalid memory size".
Proof.
  unfold parseOutput. destruct (unpack ptr) as [sz pointer].
  destruct (slice_from _ _) as [mem|]; [|discriminate].
  destruct (size mem <? sz); [intros Heq; injection Heq as <-; reflexivity|].
  destruct (sz <? 0); [discriminate|].
  destruct (parseOutput_loop _ _ _ _ _); discriminate.
Qed.

Lemma lookup_call_parse_panic instance (name : string) (args : list arg) (p : panic) :
  lookup_call_parse instance name args = Panics p ->
  p = slice_bounds_out_of_range \/ p = makeslice_len_out_of_range.
Proof.
  unfold lookup_call_parse.
  destruct (Exports instance !! name) as [fn|]; [|discriminate].
  destruct (invoke instance fn args) as [[ptr|err] instance1]; [|discriminate].
  apply parseOutput_panic_kinds.
Qed.

Lemma lookup_call_parse_error instance (name : string) (args : list arg) (err : error) :
  lookup_call_parse instance name args = Returns (Err err) ->
  read_error name err.
Proof.
  unfold lookup_call_parse, invoke, read_error.
  destruct (Exports instance !! name) as [fn|];
    [|intros Heq; injection Heq as <-; right; left; reflexivity].
  destruct (fn args _ _) as [st [res|msg]].
  - intros Hparse. right. right. exact (parseOutput_error_kind _ _ _ Hparse).
  - intros Heq. injection Heq as <-. left. exists msg. reflexivity.
Qed.

Lemma allocateInner_panic instance (each : list byte) (p : panic) :
  allocateInner instance each = Panics p ->
  p = nil_func_call /\ Exports instance !! "__allocate" = None \/
  p = slice_bounds_out_of_range.
Proof.
  unfold allocateInner, call.
  destruct (Exports instance !! "__allocate") as [alloc|];
    [|intros Heq; injection Heq as <-; left; split; reflexivity].
  destruct (invoke instance alloc _) as [[res|err] instance1]; [|discriminate].
  destruct (slice_from _ _) as [mem|];
    [|intros Heq; injection Heq as <-; right; reflexivity].
  destruct (size mem <? len each); discriminate.
Qed.

(** The slot of a table entry is eight bytes wide whenever the slice
    expression that takes it does not panic. *)
Lemma table_slot_size (mem b : view) (idx : Z) :
  sub_slice mem (int (8 * idx)) (int (int (8 * idx) + 8)) = Some b -> size b = 8.
Proof.
  unfold sub_slice.
  pose proof (int64_range (8 * idx)) as Hx. change (int64 (8 * idx)) with (int (8 * idx)) in Hx.
  set (x := int (8 * idx)) in *.
  destruct (Z.leb_spec 0 x); [|discriminate].
  destruct (Z.leb_spec x (int (x + 8))) as [Hle|]; [|discriminate].
  destruct (int (x + 8) <=? size mem); [|discriminate].
  cbn [andb]. intros Heq. injection Heq as <-. cbn [size].
  destruct (Z.lt_ge_cases (x + 8) (2 ^ 63)) as [Hsmall|Hlarge].
  - rewrite int_id in * by lia. lia.
  - exfalso. unfold int, wrap in Hle. change (64 - 1) with 63 in Hle.
    replace (x + 8 + 2 ^ 63) with (x + 8 - 2 ^ 63 + 1 * 2 ^ 64) in Hle by lia.
    rewrite Z.mod_add in Hle by lia. rewrite Z.mod_small in Hle by lia. lia.
Qed.

Lemma allocate_loop_panic (mem : view) (data : list (list byte)) :
  forall instance (idx : Z) (p : panic),
    allocate_loop instance mem idx data = Panics p ->
    p = nil_func_call /\ Exports instance !! "__allocate" = None \/
    p = slice_bounds_out_of_range.
Proof.
  induction data as [|each rest IH]; intros instance idx p; cbn [allocate_loop];
    [discriminate|].
  destruct (allocateInner instance each) as [[[loc|err] instance1]|p0] eqn:Hinner;
    [| discriminate |].
  - pose proof (allocateInner_Exports _ _ _ _ Hinner) as Hexp.
    destruct (sub_slice _ _ _) as [b|] eqn:Hslot;
      [|intros Heq; injection Heq as <-; right; reflexivity].
    unfold PutUint64. rewrite (table_slot_size _ _ _ Hslot).
    change (7 <? 8) with true. cbv iota.
    intros Hrest. apply IH in Hrest as [[-> Hnone] | ->]; [left|right; reflexivity].
    split; [reflexivity|]. rewrite <- Hexp. exact Hnone.
  - intros Heq. injection Heq as <-. exact (allocateInner_panic _ _ _ Hinner).
Qed.

Lemma allocate_panic instance (data : list (list byte)) (p : panic) :
  allocate instance data = Panics p ->
  p = nil_func_call /\ Exports instance !! "__allocate" = None \/
  p = slice_bounds_out_of_range.
Proof.
  unfold allocate, call, invoke.
  destruct (Exports instance !! "__allocate") as [alloc|] eqn:Hexp;
    [|intros Heq; injection Heq as <-; left; split; reflexivity].
  destruct (alloc _ _ _) as [st [res|msg]]; [|discriminate].
  destruct (slice_from _ _) as [mem|];
    [|intros Heq; injection Heq as <-; right; reflexivity].
  destruct (size mem <? int (8 * len data)); [discriminate|].
  destruct (allocate_loop _ _ _ _) as [[[u|err] instance2]|p0] eqn:Hloop;
    try discriminate.
  intros Heq. injection Heq as <-.
  destruct (allocate_loop_panic _ _ _ _ _ Hloop) as [[_ Hnone] | ->];
    [|right; reflexivity].
  cbn [with_state Exports] in Hnone. rewrite Hexp in Hnone. discriminate Hnone.
Qed.

Variable NewInstance : list byte -> result (Instance G).
Variable IsPrint : Z -> bool.

Lemma storeParams_then_panic instance (params : list byte) (p : panic)
    (next : Z -> Instance G -> outcome (result (list byte))) :
  (forall loc instance1,
     storeParams instance params = Returns (Ok loc, instance1) ->
     next loc instance1 = Panics p ->
     p = nil_func_call /\ Exports instance1 !! "__allocate" = None \/
     p = slice_bounds_out_of_range \/ p = makeslice_len_out_of_range) ->
  match storeParams instance params with
  | Panics p0 => Panics p0
  | Returns (Err err, _) => Returns (Err err)
  | Returns (Ok loc, instance1) => next loc instance1
  end = Panics p ->
  p = nil_func_call /\ Exports instance !! "__allocate" = None \/
  p = slice_bounds_out_of_range \/ p = makeslice_len_out_of_range.
Proof.
  intros Hnext. unfold storeParams in *.
  destruct (allocateInner instance params) as [[[loc|err] instance1]|p0] eqn:Hstore;
    [| discriminate |].
  - intros Hrun. pose proof (allocateInner_Exports _ _ _ _ Hstore) as Hexp.
    destruct (Hnext loc instance1 eq_refl Hrun) as [[-> Hnone] | Hp];
      [left; split; [reflexivity|rewrite <- Hexp; exact Hnone] | right; exact Hp].
  - intros Heq. injection Heq as <-.
    destruct (allocateInner_panic _ _ _ Hstore) as [Hnil | ->];
      [left; exact Hnil | right; left; reflexivity].
Qed.

Lemma tail_panic instance (name : string) (args : list arg) (p : panic) :
  lookup_call_parse instance name args = Panics p ->
  p = nil_func_call /\ Exports instance !! "__allocate" = None \/
  p = slice_bounds_out_of_range \/ p = makeslice_len_out_of_range.
Proof. intros Hrun. right. exact (lookup_call_parse_panic _ _ _ _ Hrun). Qed.

Lemma ParseParams_panic code params instance (p : panic) :
  NewInstance code = Ok instance ->
  ParseParams NewInstance code params = Panics p ->
  p = nil_func_call /\ Exports instance !! "__allocate" = None \/
  p = slice_bounds_out_of_range \/ p = makeslice_len_out_of_range.
Proof.
  intros Hnew. unfold ParseParams. rewrite Hnew.
  apply (storeParams_then_panic instance params p
           (fun loc instance1 =>
              lookup_call_parse instance1 "__parse_params" [arg_int64 loc])).
  intros loc instance1 _. apply tail_panic.
Qed.

Lemma Prepare_panic code params instance (p : panic) :
  NewInstance code = Ok instance ->
  Prepare NewInstance code params = Panics p ->
  p = nil_func_call /\ Exports instance !! "__allocate" = None \/
  p = slice_bounds_out_of_range \/ p = makeslice_len_out_of_range.
Proof.
  intros Hnew. unfold Prepare. rewrite Hnew.
  apply (storeParams_then_panic instance params p
           (fun loc instance1 =>
              lookup_call_parse instance1 "__prepare" [arg_int64 loc])).
  intros loc instance1 _. apply tail_panic.
Qed.

Lemma Execute_panic code params (inputs : list (list byte)) instance (p : panic) :
  NewInstance code = Ok instance ->
  Execute NewInstance code params inputs = Panics p ->
  p = nil_func_call /\ Exports instance !! "__allocate" = None \/
  p = slice_bounds_out_of_range \/ p = makeslice_len_out_of_range.
Proof.
  intros Hnew. unfold Execute. rewrite Hnew.
  apply (storeParams_then_panic instance params p
           (fun loc instance1 =>
              match allocate instance1 inputs with
              | Panics p0 => Panics p0
              | Returns (Err err, _) => Returns (Err err)
              | Returns (Ok wasmInput, instance2) =>
                  lookup_call_parse instance2 "__execute"
                    [arg_int64 loc; arg_int64 wasmInput]
              end)).
  intros loc instance1 _.
  destruct (allocate instance1 inputs) as [[[d|err] instance2]|p0] eqn:Harr;
    [| discriminate |].
  - intros Hrun. right. exact (lookup_call_parse_panic _ _ _ _ Hrun).
  - intros Heq. injection Heq as <-.
    destruct (allocate_panic _ _ _ Harr) as [Hnil | ->];
      [left; exact Hnil | right; left; reflexivity].
Qed.

Lemma ParseRawData_panic code params data instance (p : panic) :
  NewInstance code = Ok instance ->
  ParseRawData NewInstance code params data = Panics p ->
  p = nil_func_call /\ Exports instance !! "__allocate" = None \/
  p = slice_bounds_out_of_range \/ p = makeslice_len_out_of_range.
Proof.
  intros Hnew. unfold ParseRawData, storeParams. rewrite Hnew.
  destruct (allocateInner instance params) as [[r instance1]|p0] eqn:Hstore.
  - pose proof (allocateInner_Exports _ _ _ _ Hstore) as Hexp.
    destruct (allocateInner instance1 data) as [[[loc|err] instance2]|p0] eqn:Hdata;
      [| discriminate |].
    + intros Hrun. right. exact (lookup_call_parse_panic _ _ _ _ Hrun).
    + intros Heq. injection Heq as <-.
      destruct (allocateInner_panic _ _ _ Hdata) as [[-> Hnone] | ->];
        [left; split; [reflexivity|rewrite <- Hexp; exact Hnone]
        |right; left; reflexivity].
  - intros Heq. injection Heq as <-.
    destruct (allocateInner_panic _ _ _ Hstore) as [Hnil | ->];
      [left; exact Hnil | right; left; reflexivity].
Qed.

Lemma Name_panic code instance (p : panic) :
  NewInstance code = Ok instance ->
  Name NewInstance IsPrint code = Panics p ->
  p = slice_bounds_out_of_range \/ p = makeslice_len_out_of_range.
Proof.
  intros Hnew. unfold Name. rewrite Hnew.
  destruct (Exports instance !! "__name") as [fn|]; [|discriminate].
  destruct (invoke instance fn []) as [[ptr|err] instance1]; [|discriminate].
  destruct (parseOutput instance1 (ToI64 ptr)) as [[rawResult|err]|p0] eqn:Hparse.
  - destruct (Name_loop IsPrint (runes rawResult)); discriminate.
  - discriminate.
  - intros Heq. injection Heq as <-. exact (parseOutput_panic_kinds _ _ _ Hparse).
Qed.

(** X8.  The writing operations call [__allocate] without looking whether
    the module exports it, and nothing else in them calls a nil function:
    each of them panics on a nil function call exactly when the allocator is
    missing, whether or not the export of the operation itself is there. *)
Theorem nil_call_iff_no_allocator code params data (inputs : list (list byte))
    instance :
  NewInstance code = Ok instance ->
  (ParseParams NewInstance code params = Panics nil_func_call <->
   Exports instance !! "__allocate" = None) /\
  (Prepare NewInstance code params = Panics nil_func_call <->
   Exports instance !! "__allocate" = None) /\
  (ParseRawData NewInstance code params data = Panics nil_func_call <->
   Exports instance !! "__allocate" = None) /\
  (Execute NewInstance code params inputs = Panics nil_func_call <->
   Exports instance !! "__allocate" = None).
Proof.
  intros Hnew.
  assert (Hkind : forall p : panic,
            p = nil_func_call /\ Exports instance !! "__allocate" = None \/
            p = slice_bounds_out_of_range \/ p = makeslice_len_out_of_range ->
            p = nil_func_call -> Exports instance !! "__allocate" = None).
  { intros p [[_ Hnone] | [-> | ->]] Hp; [exact Hnone|discriminate Hp|discriminate Hp]. }
  split; [|split; [|split]]; split.
  - intros Hrun. exact (Hkind _ (ParseParams_panic _ _ _ _ Hnew Hrun) eq_refl).
  - intros Hnone. unfold ParseParams, storeParams.
    rewrite Hnew, allocateInner_without_allocator by exact Hnone. reflexivity.
  - intros Hrun. exact (Hkind _ (Prepare_panic _ _ _ _ Hnew Hrun) eq_refl).
  - intros Hnone. unfold Prepare, storeParams.
    rewrite Hnew, allocateInner_without_allocator by exact Hnone. reflexivity.
  - intros Hrun. exact (Hkind _ (ParseRawData_panic _ _ _ _ _ Hnew Hrun) eq_refl).
  - intros Hnone. unfold ParseRawData, storeParams.
    rewrite Hnew, allocateInner_without_allocator by exact Hnone. reflexivity.
  - intros Hrun. exact (Hkind _ (Execute_panic _ _ _ _ _ Hnew Hrun) eq_refl).
  - intros Hnone. unfold Execute, storeParams.
    rewrite Hnew, allocateInner_without_allocator by exact Hnone. reflexivity.
Qed.

(** X9.  No operation panics on an index: the copy loop of the reader and
    the table slots of the array write stay within their slices.  The
    operations that write nothing panic only in the reader, on the slice
    expression or in [make]; the writing operations panic, besides, only on
    the slice expression of a write or on the nil allocator. *)
Theorem operations_panic_kinds code params data (inputs : list (list byte))
    instance (p : panic) :
  NewInstance code = Ok instance ->
  (Name NewInstance IsPrint code = Panics p \/
   ParamsInfo NewInstance code = Panics p \/
   RawDataInfo NewInstance code = Panics p ->
   p = slice_bounds_out_of_range \/ p = makeslice_len_out_of_range) /\
  (ParseParams NewInstance code params = Panics p \/
   Prepare NewInstance code params = Panics p \/
   ParseRawData NewInstance code params data = Panics p \/
   Execute NewInstance code params inputs = Panics p ->
   p = nil_func_call \/ p = slice_bounds_out_of_range \/
   p = makeslice_len_out_of_range).
Proof.
  intros Hnew.
  assert (Hweak : p = nil_func_call /\ Exports instance !! "__allocate" = None \/
                  p = slice_bounds_out_of_range \/ p = makeslice_len_out_of_range ->
                  p = nil_func_call \/ p = slice_bounds_out_of_range \/
                  p = makeslice_len_out_of_range).
  { intros [[-> _] | Hp]; [left; reflexivity | right; exact Hp]. }
  split.
  - intros [Hrun | [Hrun | Hrun]].
    + exact (Name_panic _ _ _ Hnew Hrun).
    + unfold ParamsInfo in Hrun. rewrite Hnew in Hrun.
      exact (lookup_call_parse_panic _ _ _ _ Hrun).
    + unfold RawDataInfo in Hrun. rewrite Hnew in Hrun.
      exact (lookup_call_parse_panic _ _ _ _ Hrun).
  - intros [Hrun | [Hrun | [Hrun | Hrun]]]; apply Hweak.
    + exact (ParseParams_panic _ _ _ _ Hnew Hrun).
    + exact (Prepare_panic _ _ _ _ Hnew Hrun).
    + exact (ParseRawData_panic _ _ _ _ _ Hnew Hrun).
    + exact (Execute_panic _ _ _ _ _ Hnew Hrun).
Qed.

End Outcomes.

Section Errors.
Context {G : Type}.
Variable NewInstance : list byte -> result (Instance G).
Variable IsPrint : Z -> bool.
Implicit Types (instance : Instance G).

(** X10.  Once the module is instantiated, an error an operation returns is
    one the engine handed back from a call of the guest or one of the fixed
    errors of this package on its path: the bounds check of a write, the
    missing export of the operation, the bounds check of the reader, and for
    [Name] the invalid character.  The operations that write nothing never
    return the error of a write, and only [Execute] returns that of the
    table. *)
Theorem operations_error_kinds code params data (inputs : list (list byte))
    instance (err : error) :
  NewInstance code = Ok instance ->
  (Name NewInstance IsPrint code = Returns (Err err) ->
   read_error "__name" err \/ err = errors_New "Invalid name character") /\
  (ParamsInfo NewInstance code = Returns (Err err) ->
   read_error "__params_info" err) /\
  (RawDataInfo NewInstance code = Returns (Err err) ->
   read_error "__raw_data_info" err) /\
  (ParseParams NewInstance code params = Returns (Err err) ->
   write_error err /\ err <> errors_New "allocate: invalid memory size" \/
   read_error "__parse_params" err) /\
  (Prepare NewInstance code params = Returns (Err err) ->
   write_error err /\ err <> errors_New "allocate: invalid memory size" \/
   read_error "__prepare" err) /\
  (ParseRawData NewInstance code params data = Returns (Err err) ->
   write_error err /\ err <> errors_New "allocate: invalid memory size" \/
   read_error "__parse_raw_data" err) /\
  (Execute NewInstance code params inputs = Returns (Err err) ->
   write_error err \/ read_error "__execute" err).
Proof.
  intros Hnew.
  assert (Hinner : forall instance0 instance1 (each : list byte) (e : error),
            allocateInner instance0 each = Returns (Err e, instance1) ->
            write_error e /\ e <> errors_New "allocate: invalid memory size").
  { intros instance0 instance1 each e Hrun.
    pose proof (allocateInner_write_error _ _ _ _ Hrun) as Hw.
    split; [exact Hw|].
    apply allocateInner_Err in Hrun as [Hcall | (res & mem & _ & _ & _ & ->)];
      [|discriminate].
    unfold call, invoke in Hcall.
    destruct (Exports instance0 !! "__allocate") as [alloc|]; [|discriminate].
    destruct (alloc _ _ _) as [st [res|msg]]; [discriminate|].
    injection Hcall as <- _. discriminate. }
  split; [|split; [|split; [|split; [|split; [|split]]]]].
  - unfold Name. rewrite Hnew.
    destruct (Exports instance !! "__name") as [fn|];
      [|intros Heq; injection Heq as <-; left; right; left; reflexivity].
    unfold invoke. destruct (fn [] _ _) as [st [ptr|msg]];
      [|intros Heq; injection Heq as <-; left; left; exists msg; reflexivity].
    destruct (parseOutput _ _) as [[rawResult|err0]|p0] eqn:Hparse.
    + destruct (Name_loop IsPrint (runes rawResult)); [discriminate|].
      intros Heq. injection Heq as <-. right. reflexivity.
    + intros Heq. injection Heq as <-. left. right. right.
      exact (parseOutput_error_kind _ _ _ Hparse).
    + discriminate.
  - unfold ParamsInfo. rewrite Hnew. apply lookup_call_parse_error.
  - unfold RawDataInfo. rewrite Hnew. apply lookup_call_parse_error.
  - unfold ParseParams, storeParams. rewrite Hnew.
    destruct (allocateInner instance params) as [[[loc|err0] instance1]|p0] eqn:Hstore;
      [| |discriminate].
    + intros Hrun. right. exact (lookup_call_parse_error _ _ _ _ Hrun).
    + intros Heq. injection Heq as <-. left. exact (Hinner _ _ _ _ Hstore).
  - unfold Prepare, storeParams. rewrite Hnew.
    destruct (allocateInner instance params) as [[[loc|err0] instance1]|p0] eqn:Hstore;
      [| |discriminate].
    + intros Hrun. right. exact (lookup_call_parse_error _ _ _ _ Hrun).
    + intros Heq. injection Heq as <-. left. exact (Hinner _ _ _ _ Hstore).
  - unfold ParseRawData, storeParams. rewrite Hnew.
    destruct (allocateInner instance params) as [[r instance1]|p0]; [|discriminate].
    destruct (allocateInner instance1 data) as [[[loc|err0] instance2]|p0] eqn:Hdata;
      [| |discriminate].
    + intros Hrun. right. exact (lookup_call_parse_error _ _ _ _ Hrun).
    + intros Heq. injection Heq as <-. left. exact (Hinner _ _ _ _ Hdata).
  - unfold Execute, storeParams. rewrite Hnew.
    destruct (allocateInner instance params) as [[[loc|err0] instance1]|p0] eqn:Hstore;
      [| |discriminate].
    + destruct (allocate instance1 inputs) as [[[d|err0] instance2]|p0] eqn:Harr;
        [| |discriminate].
      * intros Hrun. right. exact (lookup_call_parse_error _ _ _ _ Hrun).
      * intros Heq. injection Heq as <-. left. exact (allocate_write_error _ _ _ _ Harr).
    + intros Heq. injection Heq as <-. left. exact (proj1 (Hinner _ _ _ _ Hstore)).
Qed.

End Errors.

(** ** Writes of nothing *)

(** X11.  Writing the empty buffer, and writing the empty array, is a call
    of the allocator for zero bytes and nothing more: the instance is the
    one the call left, the descriptor is the bare offset the allocator
    returned, and that offset may be the very end of the memory. *)
Theorem empty_inputs_write_nothing {G : Type} (instance instance' : Instance G)
    (d : Z) :
  allocateInner instance [] = Returns (Ok d, instance') \/
  allocate instance [] = Returns (Ok d, instance') ->
  exists res,
    call instance "__allocate" [arg_int 0] = Returns (Ok res, instance') /\
    d = ToI32 res /\ 0 <= d <= len (Memory instance').
Proof.
  assert (Hpack : forall q, 0 <= q < 2 ^ 31 -> pack 0 q = q).
  { intros q Hq. rewrite pack_nonneg_offset by lia. reflexivity. }
  intros [Hrun | Hrun].
  - destruct (allocateInner_inv _ _ _ _ Hrun)
      as (alloc & mem1 & g1 & res & Hexp & Hcall & Hlow & Hfit & -> & ->).
    pose proof (int32_range (value_bits res)) as Hr. fold (ToI32 res) in Hr.
    change (len (@nil byte)) with 0 in *.
    exists res. split; [exact (call_of_alloc _ _ _ _ _ _ Hexp Hcall)|].
    split; [apply Hpack; lia|]. rewrite Hpack by lia. cbn [Memory list_inserts]. lia.
  - destruct (allocate_inv instance instance' [] d) as
      (res & instance0 & Hcall & Hlow & Hfit & Hloop & ->); [reflexivity|exact Hrun|].
    pose proof (int32_range (value_bits res)) as Hr. fold (ToI32 res) in Hr.
    change (len (@nil (list byte))) with 0 in *. change (8 * 0) with 0 in *.
    cbn [allocate_loop] in Hloop. injection Hloop as <-.
    exists res. split; [exact Hcall|].
    split; [apply Hpack; lia|]. rewrite Hpack by lia. lia.
Qed.

(** ** The result of [Name] *)

Lemma runes_all_ascii (s : list byte) :
  Forall (fun b => byte.unsigned b < 0x80) s -> runes s = map byte.unsigned s.
Proof.
  unfold runes. induction 1 as [|b t Hb _ IH]; [reflexivity|].
  cbn [runes_from map]. rewrite decodeRune_ascii by exact Hb.
  cbn [pred]. rewrite IH. reflexivity.
Qed.

Lemma Name_loop_forallb (IsPrint : Z -> bool) (chs : list Z) :
  Name_loop IsPrint chs = forallb IsPrint chs.
Proof.
  induction chs as [|ch rest IH]; [reflexivity|].
  cbn [Name_loop forallb]. rewrite IH. destruct (IsPrint ch); reflexivity.
Qed.

Lemma forallb_bytes (IsPrint : Z -> bool) (s : list byte) :
  forallb IsPrint (map byte.unsigned s)
  = forallb (fun b => IsPrint (byte.unsigned b)) s.
Proof.
  induction s as [|b t IH]; [reflexivity|].
  cbn [map forallb]. rewrite IH. reflexivity.
Qed.

Section NameResult.
Context {G : Type}.
Variable NewInstance : list byte -> result (Instance G).
Variable IsPrint : Z -> bool.

(** X13.  On a result made of ASCII bytes the range loop visits the bytes
    themselves, one character each: [Name] returns the result when every
    byte is printable and the invalid-name error otherwise. *)
Theorem Name_of_ascii_result code (instance instance1 : Instance G)
    (fn : guest_fn G) (ptr : Value) (rawResult : list byte) :
  NewInstance code = Ok instance ->
  Exports instance !! "__name" = Some fn ->
  invoke instance fn [] = (Ok ptr, instance1) ->
  parseOutput instance1 (ToI64 ptr) = Returns (Ok rawResult) ->
  Forall (fun b => byte.unsigned b < 0x80) rawResult ->
  Name NewInstance IsPrint code
  = if forallb (fun b => IsPrint (byte.unsigned b)) rawResult
    then Returns (Ok rawResult)
    else Returns (Err (errors_New "Invalid name character")).
Proof.
  intros Hnew Hexp Hcall Hparse Hascii. unfold Name.
  rewrite Hnew, Hexp, Hcall, Hparse.
  rewrite (runes_all_ascii _ Hascii), Name_loop_forallb, forallb_bytes.
  reflexivity.
Qed.

(** X14.  What [Name] returns has passed the check: the result is the
    buffer the reader found at the descriptor [__name] returned, and every
    character the range loop decodes from it is printable. *)
Theorem Name_returns_printable code (rawResult : list byte) :
  Name NewInstance IsPrint code = Returns (Ok rawResult) ->
  Forall (fun ch => IsPrint ch = true) (runes rawResult) /\
  exists instance instance1 (fn : guest_fn G) (ptr : Value),
    NewInstance code = Ok instance /\
    Exports instance !! "__name" = Some fn /\
    invoke instance fn [] = (Ok ptr, instance1) /\
    parseOutput instance1 (ToI64 ptr) = Returns (Ok rawResult).
Proof.
  unfold Name.
  destruct (NewInstance code) as [instance|err] eqn:Hnew; [|discriminate].
  destruct (Exports instance !! "__name") as [fn|] eqn:Hexp; [|discriminate].
  destruct (invoke instance fn []) as [[ptr|err] instance1] eqn:Hcall; [|discriminate].
  destruct (parseOutput instance1 (ToI64 ptr)) as [[res|err]|p] eqn:Hparse;
    try discriminate.
  destruct (Name_loop IsPrint (runes res)) eqn:Hloop; [|discriminate].
  intros Heq. injection Heq as <-. split.
  - rewrite Name_loop_forallb in Hloop. apply Forall_forall.
    intros ch Hch. rewrite forallb_forall in Hloop. apply Hloop.
    apply list_elem_of_In. exact Hch.
  - exists instance, instance1, fn, ptr. repeat split; assumption || reflexivity.
Qed.

End NameResult.

(** ** The properties above at concrete guests *)

(** X2 at a guest with 32 bytes of memory and the buffer [1, 2, 3]. *)
Lemma allocateInner_writes_only_its_range_witness :
  exists (res : Value) (instance1 instance' : Instance Z),
    allocateInner bare bytes_123 = Returns (Ok (pack 3 0), instance') /\
    call bare "__allocate" [arg_int 3] = Returns (Ok res, instance1) /\
    stored_at (Memory instance') (ToI32 res) bytes_123 /\
    len (Memory instance') = len (Memory instance1).
Proof.
  pose (instance' := copy (with_state bare (zeros 32, 3))
                       {| base := 0; size := 32 |} bytes_123).
  destruct (allocateInner_writes_only_its_range bare instance' bytes_123 (pack 3 0)
              eq_refl)
    as (res & instance1 & Hcall & _ & _ & Hst & Hlen & _).
  exists res, instance1, instance'.
  split; [reflexivity|]. split; [exact Hcall|]. split; [exact Hst|exact Hlen].
Defined.

(** X3 at the same guest and buffer. *)
Lemma allocateInner_descriptor_fields_witness :
  exists instance' : Instance Z,
    allocateInner bare bytes_123 = Returns (Ok (pack 3 0), instance') /\
    descriptor_length (pack 3 0) = 3 /\
    dereference instance' (pack 3 0) = Some bytes_123.
Proof.
  pose (instance' := copy (with_state bare (zeros 32, 3))
                       {| base := 0; size := 32 |} bytes_123).
  destruct (allocateInner_descriptor_fields bare instance' bytes_123 (pack 3 0)
              eq_refl eq_refl)
    as (Hlength & _ & _ & Hderef).
  exists instance'. split; [reflexivity|]. split; [exact Hlength|exact Hderef].
Defined.

(** X4 at a guest with 32 bytes of memory, the params [1, 2, 3] and the
    data [7]. *)
Lemma ParseRawData_both_inputs_readable_witness :
  exists instance2 : Instance Z,
    ParseRawData (fixed_engine echo_guest) [] bytes_123 [Byte.x07]
    = lookup_call_parse instance2 "__parse_raw_data"
        [arg_int64 (pack 3 0); arg_int64 (pack 1 3)] /\
    parseOutput instance2 (pack 3 0) = Returns (Ok bytes_123) /\
    parseOutput instance2 (pack 1 3) = Returns (Ok [Byte.x07]).
Proof.
  pose (instance1 := copy (with_state echo_guest (zeros 32, 3))
                       {| base := 0; size := 32 |} bytes_123).
  pose (instance2 := copy (with_state instance1 (Memory instance1, 4))
                       {| base := 3; size := 29 |} [Byte.x07]).
  exists instance2.
  apply (ParseRawData_both_inputs_readable bump_owned bump_allocate
           bump_allocate_fresh (fixed_engine echo_guest) [] bytes_123 [Byte.x07]
           echo_guest instance1 instance2 (pack 3 0) (pack 1 3));
    reflexivity.
Defined.

(** X5 at a guest with 64 bytes of memory, the params [1, 2, 3] and three
    inputs. *)
Lemma Execute_both_inputs_readable_witness :
  exists (instance1 instance2 : Instance Z) (wasmInput : Z),
    storeParams mirror_guest bytes_123 = Returns (Ok (pack 3 0), instance1) /\
    allocate instance1 three_buffers = Returns (Ok wasmInput, instance2) /\
    parseOutput instance2 (pack 3 0) = Returns (Ok bytes_123) /\
    read_table instance2 wasmInput = Some three_buffers.
Proof.
  pose (instance1 := copy (with_state mirror_guest (zeros 64, 3))
                       {| base := 0; size := 64 |} bytes_123).
  assert (Hok : succeeded (allocate instance1 three_buffers) = true)
    by (vm_compute; reflexivity).
  destruct (allocate instance1 three_buffers) as [[[d|err] instance2]|p] eqn:Hrun.
  - exists instance1, instance2, d.
    split; [reflexivity|]. split; [exact Hrun|].
    destruct (Execute_both_inputs_readable bump_owned bump_allocate
                bump_allocate_fresh (fixed_engine mirror_guest) [] bytes_123
                three_buffers mirror_guest instance1 instance2 (pack 3 0) d)
      as (_ & Hparams & Hinputs).
    + reflexivity.
    + reflexivity.
    + reflexivity.
    + exact Hrun.
    + reflexivity.
    + reflexivity.
    + repeat constructor.
    + split; [exact Hparams|exact Hinputs].
  - discriminate Hok.
  - discriminate Hok.
Defined.

(** X6 at a guest whose operations hand their argument back. *)
Lemma ParseParams_Prepare_return_params_witness :
  ParseParams (fixed_engine mirror_guest) [] bytes_123 = Returns (Ok bytes_123) /\
  Prepare (fixed_engine mirror_guest) [] bytes_123 = Returns (Ok bytes_123).
Proof.
  pose (instance1 := copy (with_state mirror_guest (zeros 64, 3))
                       {| base := 0; size := 64 |} bytes_123).
  destruct (ParseParams_Prepare_return_params (fixed_engine mirror_guest) []
              bytes_123 mirror_guest instance1 (pack 3 0) guest_last)
    as [HParseParams HPrepare].
  - reflexivity.
  - reflexivity.
  - reflexivity.
  - intros d mem g. exists g. reflexivity.
  - split; [apply HParseParams|apply HPrepare]; reflexivity.
Defined.

(** X7 at three buffers: the second entry of the table is read back as the
    second buffer. *)
Lemma allocate_entries_parseOutput_witness :
  exists (d : Z) (instance' : Instance Z),
    allocate echo_guest three_buffers = Returns (Ok d, instance') /\
    parseOutput instance' (table_descriptor instance' (descriptor_offset d) 1)
    = Returns (Ok [Byte.x07]).
Proof.
  assert (Hok : succeeded (allocate echo_guest three_buffers) = true)
    by (vm_compute; reflexivity).
  destruct (allocate echo_guest three_buffers) as [[[d|err] instance']|p] eqn:Hrun.
  - exists d, instance'. split; [reflexivity|].
    apply (allocate_entries_parseOutput bump_owned bump_allocate bump_allocate_fresh
             echo_guest instance' three_buffers d).
    + reflexivity.
    + reflexivity.
    + repeat constructor.
    + exact Hrun.
    + reflexivity.
  - discriminate Hok.
  - discriminate Hok.
Defined.

(** X8 at a module that exports the four operations and no allocator. *)
Lemma nil_call_iff_no_allocator_witness :
  ParseParams (fixed_engine no_allocator) [] bytes_123 = Panics nil_func_call /\
  Prepare (fixed_engine no_allocator) [] bytes_123 = Panics nil_func_call /\
  ParseRawData (fixed_engine no_allocator) [] bytes_123 [Byte.x07]
    = Panics nil_func_call /\
  Execute (fixed_engine no_allocator) [] bytes_123 three_buffers
    = Panics nil_func_call.
Proof.
  destruct (nil_call_iff_no_allocator (fixed_engine no_allocator) [] bytes_123
              [Byte.x07] three_buffers no_allocator eq_refl)
    as (HParseParams & HPrepare & HParseRawData & HExecute).
  split; [apply HParseParams; reflexivity|].
  split; [apply HPrepare; reflexivity|].
  split; [apply HParseRawData; reflexivity|apply HExecute; reflexivity].
Defined.

(** X9 at a [__name] whose descriptor points past the end of the memory,
    and at the module without an allocator. *)
Lemma operations_panic_kinds_witness :
  Name (fixed_engine named_past_end) ascii_print []
    = Panics slice_bounds_out_of_range /\
  ParseParams (fixed_engine no_allocator) [] bytes_123 = Panics nil_func_call /\
  (slice_bounds_out_of_range = slice_bounds_out_of_range \/
   slice_bounds_out_of_range = makeslice_len_out_of_range).
Proof.
  split; [reflexivity|]. split; [reflexivity|].
  apply (operations_panic_kinds (fixed_engine named_past_end) ascii_print []
           bytes_123 [Byte.x07] three_buffers named_past_end
           slice_bounds_out_of_range eq_refl).
  left. reflexivity.
Defined.

(** X10 at params that do not fit the guest's memory: the error is the
    allocator's, handed back by the engine. *)
Lemma operations_error_kinds_witness :
  ParseParams (fixed_engine bare) [] (zeros 40)
    = Returns (Err (engine_error "out of memory")) /\
  (write_error (engine_error "out of memory") /\
   engine_error "out of memory" <> errors_New "allocate: invalid memory size" \/
   read_error "__parse_params" (engine_error "out of memory")).
Proof.
  split; [reflexivity|].
  apply (operations_error_kinds (fixed_engine bare) ascii_print [] (zeros 40)
           [Byte.x07] three_buffers bare (engine_error "out of memory") eq_refl).
  reflexivity.
Defined.

(** X11 at the empty buffer and a guest that has handed out nothing yet. *)
Lemma empty_inputs_write_nothing_witness :
  exists res,
    call bare "__allocate" [arg_int 0] = Returns (Ok res, with_state bare (zeros 32, 0)) /\
    0 = ToI32 res /\ 0 <= 0 <= len (Memory (with_state bare (zeros 32, 0))).
Proof.
  apply (empty_inputs_write_nothing bare (with_state bare (zeros 32, 0)) 0).
  left. reflexivity.
Defined.

(** X12 at a name with a line feed in it. *)
Lemma Name_rejects_ascii_control_witness :
  Name (fixed_engine named_line_feed) ascii_print []
  = Returns (Err (errors_New "Invalid name character")).
Proof.
  apply (Name_rejects_ascii_control (fixed_engine named_line_feed) ascii_print []
           named_line_feed (with_state named_line_feed (Memory named_line_feed, 3))
           (guest_const (pack 3 0)) {| value_bits := pack 3 0 |}
           [Byte.x61; Byte.x0a; Byte.x62] Byte.x0a);
    try reflexivity.
  apply elem_of_cons. right. apply elem_of_cons. left. reflexivity.
Defined.

(** X13 at the name [abc]. *)
Lemma Name_of_ascii_result_witness :
  Name (fixed_engine named_abc) ascii_print []
  = Returns (Ok [Byte.x61; Byte.x62; Byte.x63]).
Proof.
  apply (Name_of_ascii_result (fixed_engine named_abc) ascii_print []
           named_abc (with_state named_abc (Memory named_abc, 3))
           (guest_const (pack 3 0)) {| value_bits := pack 3 0 |}
           [Byte.x61; Byte.x62; Byte.x63]);
    try reflexivity.
  repeat constructor.
Defined.

(** X14 at the name [abc]. *)
Lemma Name_returns_printable_witness :
  Forall (fun ch => ascii_print ch = true) (runes [Byte.x61; Byte.x62; Byte.x63]).
Proof.
  apply (Name_returns_printable (fixed_engine named_abc) ascii_print []
           [Byte.x61; Byte.x62; Byte.x63]).
  reflexivity.
Defined.

(** X15 at three buffers and 32 bytes of memory. *)
Lemma allocate_bump_roundtrip_witness :
  exists (d : Z) (instance' : Instance Z),
    allocate echo_guest three_buffers = Returns (Ok d, instance') /\
    read_table instance' d = Some three_buffers.
Proof.
  apply (allocate_bump_roundtrip
           [("__allocate", bump_allocate); ("__parse_raw_data", guest_last)]
           (zeros 32) 0 three_buffers).
  - reflexivity.
  - lia.
  - vm_compute. discriminate.
  - reflexivity.
Defined.

(** ** Results the guest writes during the call *)

(** X16.  [ParamsInfo] and [RawDataInfo] read the result from the memory as
    the call of the export left it: a buffer the export stored during the
    call, shorter than [2^31] bytes and below the offset [2^31], is returned
    when the export returns its descriptor. *)
Theorem info_read_after_call {G : Type}
    (NewInstance : list byte -> result (Instance G)) (code : list byte)
    (instance : Instance G) (fn : guest_fn G) (mem' : list byte) (g' : G)
    (v : Value) (bs : list byte) (p : Z) :
  NewInstance code = Ok instance ->
  fn [] (Memory instance) (guest instance) = ((mem', g'), inl v) ->
  value_bits v = pack (len bs) p ->
  stored_at mem' p bs -> p < 2 ^ 31 -> len bs < 2 ^ 31 ->
  (Exports instance !! "__params_info" = Some fn ->
   ParamsInfo NewInstance code = Returns (Ok bs)) /\
  (Exports instance !! "__raw_data_info" = Some fn ->
   RawDataInfo NewInstance code = Returns (Ok bs)).
Proof.
  intros Hnew Hcall Hv Hst Hp Hshort.
  assert (Htail : forall name, Exports instance !! name = Some fn ->
            lookup_call_parse instance name [] = Returns (Ok bs)).
  { intros name Hexp. unfold lookup_call_parse, invoke. rewrite Hexp, Hcall.
    unfold ToI64. rewrite Hv.
    destruct (parseOutput_stored (with_state instance (mem', g')) bs p Hst Hp Hshort)
      as [-> Hparse].
    exact Hparse. }
  split; intros Hexp.
  - unfold ParamsInfo. rewrite Hnew. apply Htail, Hexp.
  - unfold RawDataInfo. rewrite Hnew. apply Htail, Hexp.
Qed.

(** X16 at a guest whose two exports write their description when called. *)
Lemma info_read_after_call_witness :
  ParamsInfo (fixed_engine info_guest) [] = Returns (Ok bytes_123) /\
  RawDataInfo (fixed_engine info_guest) [] = Returns (Ok [Byte.x07]).
Proof.
  split.
  - apply (info_read_after_call (fixed_engine info_guest) [] info_guest
             (guest_write bytes_123 4)
             (list_inserts 4 bytes_123 (zeros 8)) 0
             {| value_bits := pack 3 4 |} bytes_123 4);
      try reflexivity.
    apply (stored_at_inserts (zeros 8) 4 bytes_123); [lia|vm_compute; discriminate].
  - apply (info_read_after_call (fixed_engine info_guest) [] info_guest
             (guest_write [Byte.x07] 0)
             (list_inserts 0 [Byte.x07] (zeros 8)) 0
             {| value_bits := pack 1 0 |} [Byte.x07] 0);
      try reflexivity.
    apply (stored_at_inserts (zeros 8) 0 [Byte.x07]); [lia|vm_compute; discriminate].
Defined.

(** ** What [allocate] asks of a bump allocator *)

Lemma allocate_loop_bump_state (exports : list (string * guest_fn Z))
    (mem0 : view) :
  (list_to_map exports : gmap string (guest_fn Z)) !! "__allocate"
    = Some bump_allocate ->
  forall (data : list (list byte)) (mem : list byte) (brk idx : Z),
    0 <= brk -> 0 <= idx -> idx + len data < 2 ^ 60 ->
    8 * (idx + len data) <= size mem0 ->
    brk + total_len data <= len mem -> brk + total_len data < 2 ^ 31 ->
    exists mem',
      allocate_loop (bump_guest exports mem brk) mem0 idx data
      = Returns (Ok tt, bump_guest exports mem' (brk + total_len data)) /\
      len mem' = len mem.
Proof.
  intros Hexp. induction data as [|each rest IH];
    intros mem brk idx Hbrk Hidx Hsmall Hsize Hfit Hroom.
  - exists mem. cbn [allocate_loop total_len fold_right].
    rewrite Z.add_0_r. split; reflexivity.
  - cbn [total_len fold_right] in *. fold (total_len rest) in *.
    rewrite len_cons in *.
    pose proof (len_nonneg each). pose proof (len_nonneg rest).
    pose proof (total_len_nonneg rest).
    cbn [allocate_loop]. rewrite allocateInner_bump by (assumption || lia).
    rewrite table_slot by lia. unfold PutUint64. cbn [size base].
    change (7 <? 8) with true. cbv iota.
    set (mem1 := list_inserts _ (le_split 8 _) _).
    change (with_memory (bump_guest exports ?m ?b) mem1)
      with (bump_guest exports mem1 b).
    assert (Hlen1 : len mem1 = len mem).
    { unfold mem1, bump_guest. cbn [Memory]. unfold len.
      rewrite !length_inserts. reflexivity. }
    destruct (IH mem1 (brk + len each) (idx + 1)) as (mem' & Hrun & Hlen); try lia.
    exists mem'. rewrite Hrun.
    replace (brk + len each + total_len rest) with (brk + (len each + total_len rest))
      by lia.
    split; [reflexivity|lia].
Qed.

(** X17.  Against a bump allocator with room below [2^31], [allocate]
    returns the descriptor of the table at the old break and leaves the
    break advanced by the eight bytes of each table entry and the bytes of
    the buffers, no more: it asks the allocator for the table and for each
    buffer once.  The memory keeps its length. *)
Theorem allocate_bump_consumption (exports : list (string * guest_fn Z))
    (mem : list byte) (brk : Z) (data : list (list byte)) :
  (list_to_map exports : gmap string (guest_fn Z)) !! "__allocate"
    = Some bump_allocate ->
  0 <= brk ->
  brk + 8 * len data + total_len data <= len mem ->
  brk + 8 * len data + total_len data < 2 ^ 31 ->
  exists mem',
    allocate (bump_guest exports mem brk) data
    = Returns (Ok (pack (len data) brk),
               bump_guest exports mem' (brk + 8 * len data + total_len data)) /\
    len mem' = len mem.
Proof.
  intros Hexp Hbrk Hfit Hroom.
  pose proof (len_nonneg data). pose proof (total_len_nonneg data).
  assert (Hptr : ToI32 {| value_bits := brk |} = brk)
    by (unfold ToI32; cbn [value_bits]; apply int32_id; lia).
  unfold allocate. rewrite (int_id (8 * len data)) by lia.
  rewrite call_bump by (assumption || lia). rewrite Hptr.
  unfold bump_guest at 1. cbn [Memory].
  rewrite slice_from_Some by lia. cbn [size].
  destruct (Z.ltb_spec (len mem - brk) (8 * len data)); [lia|].
  destruct (allocate_loop_bump_state exports
              {| base := brk; size := len mem - brk |} Hexp data mem
              (brk + 8 * len data) 0) as (mem' & Hrun & Hlen); cbn [size]; try lia.
  exists mem'. rewrite Hrun. split; [reflexivity|exact Hlen].
Qed.

(** X17 at three buffers and 32 bytes of memory: 24 bytes of table and 4
    of buffers. *)
Lemma allocate_bump_consumption_witness :
  exists mem' : list byte,
    allocate echo_guest three_buffers
    = Returns (Ok (pack 3 0),
               bump_guest [("__allocate", bump_allocate);
                           ("__parse_raw_data", guest_last)] mem' 28) /\
    len mem' = 32.
Proof.
  apply (allocate_bump_consumption
           [("__allocate", bump_allocate); ("__parse_raw_data", guest_last)]
           (zeros 32) 0 three_buffers).
  - reflexivity.
  - lia.
  - vm_compute. discriminate.
  - reflexivity.
Defined.
